(** * api.py: doxygen XML to node graph, verified against its specification

    A shallow embedding of [api.py] (the parallel dispatcher, the record
    normaliser, the node model, the compound parser, the index driver and
    the output serialiser), followed by the properties the specification
    states about them.

    Python objects are modelled as they are at run time: an instance is its
    class together with its own [__dict__] (in insertion order); attributes
    that were never assigned on the instance are found on the class, along
    the method resolution order.  Exceptions are values of an error monad. *)

From Stdlib Require Import ZArith String List Lia DecimalString.
From stdpp Require Import base option list gmap strings.

Set Warnings "-register-all".

Open Scope string_scope.
Open Scope list_scope.
Open Scope nat_scope.
Open Scope stdpp_scope.

(** ** Exceptions *)

Inductive exn :=
| AttributeError   (* attribute missing on an object and on its class *)
| TypeError        (* operand of the wrong run-time type *)
| ValueError       (* raised by ProcessPoolExecutor.map for chunksize < 1 *)
| FileNotFoundError. (* no document for a compound id *)

Inductive res (A : Type) : Type :=
| Ok (a : A)
| Raise (e : exn).
Arguments Ok {A} a.
Arguments Raise {A} e.

#[global] Instance res_ret : MRet res := @Ok.
#[global] Instance res_bind : MBind res := λ A B f m,
  match m with Ok a => f a | Raise e => Raise e end.
#[global] Instance res_fmap : FMap res := λ A B f m,
  match m with Ok a => Ok (f a) | Raise e => Raise e end.

(** A [for] loop whose body may raise, threading the loop state. *)
Fixpoint for_each {A S : Type} (xs : list A) (body : S → A → res S) (s : S)
  : res S :=
  match xs with
  | [] => mret s
  | x :: xs' => s' ← body s x; for_each xs' body s'
  end.

(** ** Python values and objects *)

Inductive class := ClsNode | ClsFile | ClsGroup | ClsStruct | ClsParam | ClsFunction.

Inductive value :=
| VNone
| VBool (b : bool)
| VInt (z : Z)
| VStr (s : string)
| VSet (s : gset string)
| VList (l : list value)
| VObj (c : class) (d : list (string * value)).

(** An instance: its class and its [__dict__]. *)
Record obj := Obj { cls : class; dict : list (string * value) }.

Definition to_value (o : obj) : value := VObj (cls o) (dict o).

Fixpoint dict_get (d : list (string * value)) (a : string) : option value :=
  match d with
  | [] => None
  | (k, v) :: d' => if String.eqb k a then Some v else dict_get d' a
  end.

(** Assignment to a key keeps the key's position; a new key goes last. *)
Fixpoint dict_set (d : list (string * value)) (a : string) (v : value)
  : list (string * value) :=
  match d with
  | [] => [(a, v)]
  | (k, w) :: d' => if String.eqb k a then (k, v) :: d' else (k, w) :: dict_set d' a v
  end.

(** Class-level attributes: the assignments in the class bodies.  Bare
    annotations ([id: str], [is_union: bool], the fields of [Param]) create
    no attribute. *)
Definition class_attrs (c : class) : list (string * value) :=
  match c with
  | ClsNode => [("kind", VStr ""); ("name", VStr ""); ("file", VStr "");
                ("line", VStr ""); ("parent_ids", VNone);
                ("children_ids", VNone); ("desc", VStr "")]
  | ClsFile => [("kind", VStr "file")]
  | ClsGroup => [("kind", VStr "group"); ("title", VStr "")]
  | ClsStruct => []
  | ClsParam => []
  | ClsFunction => [("kind", VStr "func"); ("return_type", VStr "void")]
  end.

Definition mro (c : class) : list class :=
  match c with
  | ClsNode => [ClsNode]
  | ClsParam => [ClsParam]
  | c => [c; ClsNode]
  end.

Fixpoint class_lookup (cs : list class) (a : string) : option value :=
  match cs with
  | [] => None
  | c :: cs' =>
      match dict_get (class_attrs c) a with
      | Some v => Some v
      | None => class_lookup cs' a
      end
  end.

(** [o.a]: the instance dictionary first, then the classes. *)
Definition getattr (o : obj) (a : string) : res value :=
  match dict_get (dict o) a with
  | Some v => Ok v
  | None =>
      match class_lookup (mro (cls o)) a with
      | Some v => Ok v
      | None => Raise AttributeError
      end
  end.

(** [o.a = v]: always on the instance. *)
Definition setattr (o : obj) (a : string) (v : value) : obj :=
  Obj (cls o) (dict_set (dict o) a v).

(** [bool(v)]. *)
Definition truthy (v : value) : bool :=
  match v with
  | VNone => false
  | VBool b => b
  | VInt z => negb (z =? 0)%Z
  | VStr s => negb (String.eqb s "")
  | VSet s => negb (bool_decide (s = ∅))
  | VList l => match l with [] => false | _ => true end
  | VObj _ _ => true
  end.

(** [str(v)].  The text of a container or of an instance depends on hash
    order, on the text of the elements or on a memory address, and is left
    unspecified. *)
Inductive text :=
| Text (s : string)
| Unspecified.

Definition str (v : value) : text :=
  match v with
  | VNone => Text "None"
  | VBool b => Text (if b then "True" else "False")
  | VInt z => Text (NilZero.string_of_int (Z.to_int z))
  | VStr s => Text s
  | VSet _ | VList _ | VObj _ _ => Unspecified
  end.

(** ** The node model *)

Module Node.

Definition init (self : obj) (id name : string) : obj :=
  let self := setattr self "id" (VStr id) in
  setattr self "name" (VStr name).

Definition add_parent (self : obj) (parent : string) : res obj :=
  ids ← getattr self "parent_ids";
  let self := if truthy ids then self else setattr self "parent_ids" (VSet ∅) in
  ids ← getattr self "parent_ids";
  match ids with
  | VSet s => mret (setattr self "parent_ids" (VSet ({[parent]} ∪ s)))
  | _ => Raise AttributeError
  end.

Definition add_child (self : obj) (child : string) : res obj :=
  ids ← getattr self "children_ids";
  let self := if truthy ids then self else setattr self "children_ids" (VSet ∅) in
  ids ← getattr self "children_ids";
  match ids with
  | VSet s => mret (setattr self "children_ids" (VSet ({[child]} ∪ s)))
  | _ => Raise AttributeError
  end.

(** [self.kind + ':' + str(self.name)]: the first sum is evaluated before
    [self.name] is read, and fails unless [kind] is a string. *)
Definition get_short_id (self : obj) : res text :=
  kind ← getattr self "kind";
  match kind with
  | VStr kind =>
      name ← getattr self "name";
      mret (match str name with
            | Text name => Text (kind +:+ ":" +:+ name)
            | Unspecified => Unspecified
            end)
  | _ => Raise TypeError
  end.

End Node.

Definition File (id name : string) : obj := Node.init (Obj ClsFile []) id name.

Definition Group (id name : string) : obj := Node.init (Obj ClsGroup []) id name.

Definition Struct (id name : string) (is_union : bool) : obj :=
  let self := Node.init (Obj ClsStruct []) id name in
  let self := setattr self "is_union" (VBool is_union) in
  setattr self "kind" (VStr (if is_union then "union" else "struct")).

Module Function.

Definition init (id name : string) : obj :=
  let self := Node.init (Obj ClsFunction []) id name in
  setattr self "params" (VList []).

(** [add_param] returns the new [Param], which the caller then fills in
    while it already sits in [self.params]: the reference it returns is
    modelled as the position of the [Param] in that list. *)
Definition add_param (self : obj) : res (obj * nat) :=
  ps ← getattr self "params";
  match ps with
  | VList l =>
      let param := setattr (Obj ClsParam []) "index" (VInt (Z.of_nat (length l))) in
      mret (setattr self "params" (VList (l ++ [to_value param])), length l)
  | _ => Raise TypeError
  end.

(** [param.a = v] for the [Param] at position [ref] of [self.params]. *)
Definition param_setattr (self : obj) (ref : nat) (a : string) (v : value)
  : res obj :=
  ps ← getattr self "params";
  match ps with
  | VList l =>
      match l !! ref with
      | Some (VObj c d) =>
          mret (setattr self "params"
                  (VList (<[ref := to_value (setattr (Obj c d) a v)]> l)))
      | _ => Raise AttributeError
      end
  | _ => Raise TypeError
  end.

End Function.

(** ** Decoded XML records (the shapes [doxmlparser] hands back) *)

(** An attribute the code probes with [hasattr]: [None] when the object has
    no such attribute, [Some None] when it holds [None]. *)
Definition attr (A : Type) : Type := option (option A).

Module locationType.
Record t := mk {
  bodyfile : attr string;
  bodystart : attr Z;
  file : attr string;
  line : attr Z;
  declfile : attr string;
  declline : attr Z }.
End locationType.

Module refTextType.
Record t := mk { refid : string; valueOf_ : string }.
End refTextType.

(** One piece of mixed content.  The decoder stores a [str] in [value] for
    [CategoryText] and [CategorySimple] and the decoded child element for
    [CategoryComplex]; [parse_type] reads the latter only through
    [valueOf_]. *)
Inductive MixedContainer :=
| CategoryText (value : string)
| CategorySimple (name : string) (value : string)
| CategoryComplex (name : string) (value : refTextType.t).

Module linkedTextType.
Record t := mk { content_ : list MixedContainer }.
End linkedTextType.

Module paramType.
Record t := mk {
  declname : option string;
  get_type : option linkedTextType.t }.
End paramType.

Module memberdefType.
Record t := mk {
  kind : string;
  id : string;
  name : string;
  location : option locationType.t;
  param : list paramType.t;
  get_type : option linkedTextType.t }.
End memberdefType.

Module refType.
Record t := mk { refid : string }.
End refType.

Module MemberType.
Record t := mk { refid : string }.
End MemberType.

Module sectiondefType.
Record t := mk {
  member : list MemberType.t;
  memberdef : option (list memberdefType.t) }.
End sectiondefType.

Module compounddefType.
Record t := mk {
  kind : string;
  id : string;
  compoundname : string;
  title : option string;
  location : option locationType.t;
  innerclass : option (list refType.t);
  innergroup : option (list refType.t);
  sectiondef : option (list sectiondefType.t) }.
End compounddefType.

(** An entry of the index document. *)
Module CompoundType.
Record t := mk { refid : string; kind : string }.
End CompoundType.

(** The kinds are [str]-valued enumeration members, compared with [==]
    against the strings decoded from the documents. *)
Module CompoundKind.
Definition FILE := "file".
Definition GROUP := "group".
Definition STRUCT := "struct".
Definition CLASS := "class".
Definition UNION := "union".
Definition PAGE := "page".
Definition DIR := "dir".
Definition CATEGORY := "category".
Definition CONCEPT := "concept".
Definition EXAMPLE := "example".
End CompoundKind.

Module DoxMemberKind.
Definition FUNCTION := "function".
End DoxMemberKind.

(** [x or []] *)
Definition or_empty {A : Type} (x : option (list A)) : list A :=
  match x with Some l => l | None => [] end.

Definition opt_str (x : option string) : value :=
  match x with Some s => VStr s | None => VNone end.

(** The two record types [parse_location] accepts. *)
Class Located (T : Type) := get_location : T → option locationType.t.
#[global] Instance compounddef_located : Located compounddefType.t :=
  compounddefType.location.
#[global] Instance memberdef_located : Located memberdefType.t :=
  memberdefType.location.

(** ** The record normaliser *)

Definition HEADER_FILE_EXTENSION : string := ".h".

(** [str.endswith] *)
Definition endswith (s suffix : string) : bool :=
  bool_decide (list_ascii_of_string suffix `suffix_of` list_ascii_of_string s).

(** [hasattr(loc, a) and loc.a and loc.a.endswith(HEADER_FILE_EXTENSION)] *)
Definition is_header (a : attr string) : bool :=
  match a with
  | Some (Some s) => truthy (VStr s) && endswith s HEADER_FILE_EXTENSION
  | _ => false
  end.

(** [loc.a] once the test above has passed *)
Definition file_value (a : attr string) : value :=
  match a with Some (Some s) => VStr s | _ => VNone end.

(** [loc.a if hasattr(loc, a) else None] *)
Definition line_value (a : attr Z) : value :=
  match a with Some (Some z) => VInt z | _ => VNone end.

Definition parse_location `{Located T} (node : obj) (compound : T) : obj :=
  match get_location compound with
  | None =>
      let node := setattr node "file" (VStr "") in
      setattr node "line" VNone
  | Some loc =>
      if is_header (locationType.bodyfile loc) then
        let node := setattr node "file" (file_value (locationType.bodyfile loc)) in
        setattr node "line" (line_value (locationType.bodystart loc))
      else if is_header (locationType.file loc) then
        let node := setattr node "file" (file_value (locationType.file loc)) in
        setattr node "line" (line_value (locationType.line loc))
      else if is_header (locationType.declfile loc) then
        let node := setattr node "file" (file_value (locationType.declfile loc)) in
        setattr node "line" (line_value (locationType.declline loc))
      else
        let node := setattr node "file" (VStr "") in
        setattr node "line" VNone
  end.

Definition parse_description : string := "".

Definition parse_type (type : option linkedTextType.t) : string :=
  match type with
  | None => "void"
  | Some type =>
      foldl (λ result part,
               match part with
               | CategoryText value => result +:+ value
               | CategoryComplex name value =>
                   if String.eqb name "ref"
                   then result +:+ refTextType.valueOf_ value
                   else result
               | CategorySimple _ _ => result
               end) "" (linkedTextType.content_ type)
  end.

(** ** Diagnostics *)

Definition ESC : string := String (Ascii.ascii_of_nat 27) "".
Definition dquote : string := String (Ascii.ascii_of_nat 34) "".

(** The line [warning] prints on the error stream. *)
Definition warning (msg : string) : string :=
  ESC +:+ "[33mwarning:" +:+ ESC +:+ "[0m" +:+ " " +:+ msg.

(** ** The compound parser *)

(** [kind in (k1, k2, ...)] *)
Definition kind_in (kind : string) (kinds : list string) : bool :=
  existsb (String.eqb kind) kinds.

(** The body of the parameter loop of [parse_function]. *)
Definition param_step (func : obj) (dox_param : paramType.t) : res obj :=
  '(func, param) ← Function.add_param func;
  func ← Function.param_setattr func param "desc" (VStr parse_description);
  func ← Function.param_setattr func param "name"
           (opt_str (paramType.declname dox_param));
  Function.param_setattr func param "type"
    (VStr (parse_type (paramType.get_type dox_param))).

Definition parse_function (memberdef : memberdefType.t) : res obj :=
  let func := Function.init (memberdefType.id memberdef) (memberdefType.name memberdef) in
  let func := parse_location func memberdef in
  let func := setattr func "desc" (VStr parse_description) in
  func ← for_each (memberdefType.param memberdef) param_step func;
  mret (setattr func "return_type"
          (VStr (parse_type (memberdefType.get_type memberdef)))).

Definition parse_memberdef (memberdef : memberdefType.t) : res (list obj) :=
  if String.eqb (memberdefType.kind memberdef) DoxMemberKind.FUNCTION
  then func ← parse_function memberdef; mret [func]
  else mret [].

(** [node.add_child(child.id)] *)
Definition add_child_node (node child : obj) : res obj :=
  id ← getattr child "id";
  match id with
  | VStr s => Node.add_child node s
  | _ => Raise TypeError
  end.

(** [result] starts as [[node]] and [node] is mutated afterwards, so its
    first element is the node as it is at the end; the loop state is the
    node together with the elements appended after it. *)
Definition parse_file_or_group (node : obj) (compound : compounddefType.t)
  : res (list obj) :=
  let node := parse_location node compound in
  let node := setattr node "desc" (VStr parse_description) in
  node ← for_each (or_empty (compounddefType.innerclass compound)
                     ++ or_empty (compounddefType.innergroup compound))
    (λ node inner_ref, Node.add_child node (refType.refid inner_ref)) node;
  '(node, rest) ← for_each (or_empty (compounddefType.sectiondef compound))
    (λ '(node, rest) sectiondef,
       node ← for_each (sectiondefType.member sectiondef)
         (λ node member, Node.add_child node (MemberType.refid member)) node;
       for_each (or_empty (sectiondefType.memberdef sectiondef))
         (λ '(node, rest) memberdef,
            children ← parse_memberdef memberdef;
            node ← for_each children add_child_node node;
            mret (node, rest ++ children))
         (node, rest))
    (node, []);
  mret (node :: rest).

Definition parse_file (compound : compounddefType.t) : res (list obj) :=
  let file := File (compounddefType.id compound) (compounddefType.compoundname compound) in
  parse_file_or_group file compound.

Definition parse_group (compound : compounddefType.t) : res (list obj) :=
  let group := Group (compounddefType.id compound) (compounddefType.compoundname compound) in
  let group := setattr group "title" (opt_str (compounddefType.title compound)) in
  parse_file_or_group group compound.

(** Returns the node itself, not a list holding it. *)
Definition parse_struct (compound : compounddefType.t) (is_union : bool) : obj :=
  let struct := Struct (compounddefType.id compound)
                  (compounddefType.compoundname compound) is_union in
  let struct := parse_location struct compound in
  setattr struct "desc" (VStr parse_description).

(** The decoded compound documents, by file name. *)
Abbreviation documents := (gmap string (list compounddefType.t)).

(** The body of the loop of [process_compound], on the lines written on the
    error stream and [result].  [result.append(x)] adds [x] as one element,
    whatever [x] is. *)
Definition compound_step (state : list string * list value)
    (compound : compounddefType.t) : res (list string * list value) :=
  let '(stderr, result) := state in
  let kind := compounddefType.kind compound in
  if String.eqb kind CompoundKind.FILE then
    nodes ← parse_file compound;
    mret (stderr, result ++ [VList (to_value <$> nodes)])
  else if String.eqb kind CompoundKind.GROUP then
    nodes ← parse_group compound;
    mret (stderr, result ++ [VList (to_value <$> nodes)])
  else if kind_in kind [CompoundKind.STRUCT; CompoundKind.CLASS; CompoundKind.UNION] then
    mret (stderr, result ++ [to_value
            (parse_struct compound (String.eqb kind CompoundKind.UNION))])
  else
    mret (stderr ++ [warning ("Unexpected doxygen compound kind: "
                                +:+ dquote +:+ kind +:+ dquote)],
          result).

(** What a run of [process_compound] leaves behind: the lines it wrote on
    the error stream and the list it returns. *)
Definition process_compound (docs : documents) (id : string)
  : res (list string * list value) :=
  match docs !! (id +:+ ".xml") with
  | None => Raise FileNotFoundError
  | Some compounddefs => for_each compounddefs compound_step ([], [])
  end.

(** ** The parallel dispatcher *)

(** An iterator, as its consumer sees it: the items it yields and the
    exception that ends it, if one does. *)
Definition iter (B : Type) : Type := (list B * option exn)%type.

(** [map(func, collected)]: evaluated item by item as it is consumed. *)
Fixpoint builtin_map {A B : Type} (func : A → res B) (xs : list A) : iter B :=
  match xs with
  | [] => ([], None)
  | x :: xs' =>
      match func x with
      | Ok b => let '(bs, e) := builtin_map func xs' in (b :: bs, e)
      | Raise e => ([], Some e)
      end
  end.

(** [zip(it, collected, range(len(collected)))]: [it] is pulled first, so
    the exception that ends it ends the zip. *)
Definition zip3 {A B : Type} (it : iter B) (collected : list A) (range : list Z)
  : iter (B * A * Z) :=
  (zip (zip it.1 collected) range, it.2).

Definition range (n : nat) : list Z := Z.of_nat <$> seq 0 n.

Record ProcessPoolExecutor := ProcessPool { process_max_workers : Z }.
Record ThreadPoolExecutor := ThreadPool { thread_max_workers : Z }.

Inductive Executor :=
| OfProcesses (e : ProcessPoolExecutor)
| OfThreads (e : ThreadPoolExecutor).

(** The pool: every submitted task has a future, in submission order.  The
    workers finish tasks in the order [sched] (which the code does not
    control); finishing task [i] stores its outcome in future [i]. *)
Definition run_pool {T R : Type} (task : T → res R) (tasks : list T)
    (sched : list nat) : list (option (res R)) :=
  foldl (λ futures i,
           match tasks !! i with
           | Some t => <[i := Some (task t)]> futures
           | None => futures
           end)
        (replicate (length tasks) None) sched.

(** The result iterator takes the futures in submission order and waits for
    one that is not done yet, which then holds the outcome of its task. *)
Definition wait_all {T R : Type} (task : T → res R) (tasks : list T)
    (futures : list (option (res R))) : list (res R) :=
  zip_with (λ t fut, match fut with Some r => r | None => task t end)
           tasks futures.

(** Yield outcomes until one is an exception. *)
Fixpoint result_iterator {R : Type} (outcomes : list (res R)) : iter R :=
  match outcomes with
  | [] => ([], None)
  | Ok r :: rest => let '(rs, e) := result_iterator rest in (r :: rs, e)
  | Raise e :: _ => ([], Some e)
  end.

(** [_get_chunks]: slices of [chunksize] items until a slice is empty. *)
Fixpoint get_chunks_fuel {A : Type} (fuel chunksize : nat) (l : list A)
  : list (list A) :=
  match fuel with
  | 0 => []
  | S fuel' =>
      match take chunksize l with
      | [] => []
      | chunk => chunk :: get_chunks_fuel fuel' chunksize (drop chunksize l)
      end
  end.

Definition get_chunks {A : Type} (chunksize : nat) (l : list A) : list (list A) :=
  get_chunks_fuel (S (length l)) chunksize l.

(** [_chain_from_iterable_of_lists] *)
Definition chain {B : Type} (it : iter (list B)) : iter B := (concat it.1, it.2).

(** [executor.map(func, collected, chunksize=chunksize)].  The thread pool
    ignores [chunksize] and submits one task per item; the process pool
    refuses a [chunksize] below one and submits one task per chunk.  The
    process pool sends the callable, the chunks and the results from one
    process to another: on that branch [func] stands for a callable that
    can be sent, with items and results that can be sent too, as
    [process_compound], the ids and the nodes of [parse_all] are.  What the
    pool does with a callable, an item or a result that cannot be sent is
    not modelled. *)
Definition executor_map {A B : Type} (executor : Executor) (sched : list nat)
    (func : A → res B) (collected : list A) (chunksize : Z) : res (iter B) :=
  match executor with
  | OfThreads _ =>
      mret (result_iterator (wait_all func collected (run_pool func collected sched)))
  | OfProcesses _ =>
      if (chunksize <? 1)%Z then Raise ValueError
      else
        let tasks := get_chunks (Z.to_nat chunksize) collected in
        let process_chunk := mapM func in
        mret (chain (result_iterator
                       (wait_all process_chunk tasks (run_pool process_chunk tasks sched))))
  end.

(** The module-level variables.  [stderr] holds the lines that the functions
    of this module write with [warning], in the order in which the main
    process comes to know of them; what the decoder prints on the same
    stream while it reads a document is not part of it. *)
Record globals := Globals {
  nodes : list value;
  process_executor : option ProcessPoolExecutor;
  thread_executor : option ThreadPoolExecutor;
  executor_workers : option Z;
  stderr : list string }.

Definition set_nodes (g : globals) (v : list value) : globals :=
  Globals v (process_executor g) (thread_executor g) (executor_workers g) (stderr g).
Definition set_process_executor (g : globals) (v : option ProcessPoolExecutor)
  : globals :=
  Globals (nodes g) v (thread_executor g) (executor_workers g) (stderr g).
Definition set_thread_executor (g : globals) (v : option ThreadPoolExecutor)
  : globals :=
  Globals (nodes g) (process_executor g) v (executor_workers g) (stderr g).
Definition set_executor_workers (g : globals) (v : option Z) : globals :=
  Globals (nodes g) (process_executor g) (thread_executor g) v (stderr g).
Definition set_stderr (g : globals) (v : list string) : globals :=
  Globals (nodes g) (process_executor g) (thread_executor g) (executor_workers g) v.

(** What the run does not decide: the processor count the system reports,
    the order in which workers finish, and the draws of the random source. *)
Record environment := Environment {
  cpu_count : option Z;
  sched : list nat;
  randbelow : nat → nat }.

Definition concurrent_pool_iter {A B : Type} (env : environment)
    (func : A → res B) (iterable : list A) (use_process : bool) (threshold : Z)
    (g : globals) : globals * res (iter (B * A * Z)) :=
  let collected := iterable in
  let len := Z.of_nat (length collected) in
  let '(g, it) :=
    if (threshold <=? len)%Z then
      let workers :=
        match cpu_count env with
        | None => 1%Z
        | Some w => if (w <? 1)%Z then 1%Z else w
        end in
      let g := set_executor_workers g (Some workers) in
      let '(g, executor) :=
        if use_process then
          match process_executor g with
          | None =>
              let e := ProcessPool workers in
              (set_process_executor g (Some e), OfProcesses e)
          | Some e => (g, OfProcesses e)
          end
        else
          match thread_executor g with
          | None =>
              let e := ThreadPool workers in
              (set_thread_executor g (Some e), OfThreads e)
          | Some e => (g, OfThreads e)
          end in
      let chunksize := ((len + workers - 1) `div` workers)%Z in
      (g, executor_map executor (sched env) func collected chunksize)
    else (g, mret (builtin_map func collected)) in
  (g, it ← it; mret (zip3 it collected (range (length collected)))).

(** ** The index driver *)

(** [x[i], x[j] = x[j], x[i]] *)
Definition swap {A : Type} (x : list A) (i j : nat) : list A :=
  match x !! i, x !! j with
  | Some a, Some b => <[j := a]> (<[i := b]> x)
  | _, _ => x
  end.

(** [random.shuffle]: for [i] from the last position down to 1, swap
    position [i] with a position drawn below [i + 1] (the draw is reduced
    to that range, which the generator guarantees). *)
Definition shuffle {A : Type} (randbelow : nat → nat) (x : list A) : list A :=
  foldl (λ x i, swap x i (randbelow (i + 1) `mod` (i + 1))) x
        (reverse (seq 1 (length x - 1))).

Definition kept_kinds : list string :=
  [CompoundKind.FILE; CompoundKind.GROUP; CompoundKind.STRUCT;
   CompoundKind.CLASS; CompoundKind.UNION].

Definition skipped_kinds : list string :=
  [CompoundKind.PAGE; CompoundKind.DIR; CompoundKind.CATEGORY;
   CompoundKind.CONCEPT; CompoundKind.EXAMPLE].

(** The body of the first loop of [parse_all], on the error stream and
    [ids]. *)
Definition index_step (state : list string * list string)
    (compound : CompoundType.t) : list string * list string :=
  let '(stderr, ids) := state in
  let kind := CompoundType.kind compound in
  if kind_in kind kept_kinds then
    (stderr, ids ++ [CompoundType.refid compound])
  else if kind_in kind skipped_kinds then
    (stderr, ids)
  else
    (stderr ++ [warning ("Unknown doxygen compound kind: "
                           +:+ dquote +:+ kind +:+ dquote)], ids).

Definition collect_ids (index : list CompoundType.t) (stderr : list string)
  : list string * list string :=
  foldl index_step (stderr, []) index.

(** The last loop of [parse_all]: [nodes.extend(node)] for each triple.  A
    worker writes its warnings on the same error stream; they are appended
    here with the result they belong to. *)
Definition merge (g : globals) (triple : (list string * list value) * string * Z)
  : globals :=
  let '(node, _, _) := triple in
  set_nodes (set_stderr g (stderr g ++ node.1)) (nodes g ++ node.2).

Definition parse_all (env : environment) (index : list CompoundType.t)
    (docs : documents) (g : globals) : globals * res () :=
  let '(err, ids) := collect_ids index (stderr g) in
  let g := set_stderr g err in
  let ids := shuffle (randbelow env) ids in
  let '(g, it) := concurrent_pool_iter env (process_compound docs) ids true 20 g in
  match it with
  | Raise e => (g, Raise e)
  | Ok (triples, e) =>
      (foldl merge g triples,
       match e with Some e => Raise e | None => Ok () end)
  end.

(** ** The output serialiser *)

Inductive json :=
| JNull
| JBool (b : bool)
| JNum (z : Z)
| JStr (s : string)
| JArr (l : list json)
| JObj (members : list (string * json)).

(** [MyEncoder().encode]: the document, before it is laid out as text.
    [default] turns a set into [list(o)] and any other object into its
    [__dict__]; what it returns is encoded in turn. *)
Fixpoint encode (o : value) : json :=
  match o with
  | VNone => JNull
  | VBool b => JBool b
  | VInt z => JNum z
  | VStr s => JStr s
  | VList l => JArr (map encode l)
  | VSet s => JArr (JStr <$> elements s)
  | VObj _ d => JObj (map (λ kv, (kv.1, encode kv.2)) d)
  end.

Definition json_keys (j : json) : list string :=
  match j with JObj members => members.*1 | _ => [] end.

(** * The vocabulary of the specification *)

(** The value a relationship attribute can hold and the set it stands for. *)
Definition is_ids (v : value) : bool :=
  match v with VNone | VSet _ => true | _ => false end.

Definition ids_of (v : value) : gset string :=
  match v with VSet s => s | _ => ∅ end.

(** What the program does to a node once it is constructed: the two
    relationship methods and plain assignments to an attribute. *)
Inductive mutation :=
| AddParent (parent : string)
| AddChild (child : string)
| Assign (a : string) (v : value).

Definition mutate (node : obj) (m : mutation) : res obj :=
  match m with
  | AddParent p => Node.add_parent node p
  | AddChild c => Node.add_child node c
  | Assign a v => mret (setattr node a v)
  end.

Definition is_add_parent (m : mutation) : bool :=
  match m with AddParent _ => true | _ => false end.
Definition is_add_child (m : mutation) : bool :=
  match m with AddChild _ => true | _ => false end.

(** No statement of the program assigns to the two relationship attributes;
    only [add_parent] and [add_child] do. *)
Definition assigns_other (m : mutation) : bool :=
  match m with
  | Assign a _ => negb (String.eqb a "parent_ids") && negb (String.eqb a "children_ids")
  | _ => true
  end.

Inductive constructed : obj → Prop :=
| constructed_File id name : constructed (File id name)
| constructed_Group id name : constructed (Group id name)
| constructed_Struct id name is_union : constructed (Struct id name is_union)
| constructed_Function id name : constructed (Function.init id name)
| constructed_Node id name : constructed (Node.init (Obj ClsNode []) id name).

(** Both relationship attributes hold [None] or a set. *)
Definition well_formed (node : obj) : Prop :=
  (∃ v, getattr node "parent_ids" = Ok v ∧ is_ids v = true) ∧
  (∃ v, getattr node "children_ids" = Ok v ∧ is_ids v = true).

(** The candidate pairs of a location record, in priority order: body,
    primary, declaration. *)
Definition candidates (loc : locationType.t) : list (attr string * attr Z) :=
  [(locationType.bodyfile loc, locationType.bodystart loc);
   (locationType.file loc, locationType.line loc);
   (locationType.declfile loc, locationType.declline loc)].

(** A candidate qualifies when its file name is there and ends with the
    header suffix. *)
Definition header_file (f : attr string) (s : string) : Prop :=
  f = Some (Some s) ∧ ∃ stem, s = stem +:+ ".h".

(** The line of a candidate: its number when it has one. *)
Definition line_number (l : attr Z) : value :=
  default VNone (VInt <$> mjoin l).

Definition resolved (n : obj) (file line : value) : Prop :=
  getattr n "file" = Ok file ∧ getattr n "line" = Ok line.

(** What a fragment shows: a plain fragment its literal text, a reference
    fragment its display value; any other fragment shows nothing. *)
Definition display (part : MixedContainer) : option string :=
  match part with
  | CategoryText text => Some text
  | CategoryComplex name ref =>
      if decide (name = "ref") then Some (refTextType.valueOf_ ref) else None
  | CategorySimple _ _ => None
  end.

(** In-order concatenation. *)
Definition concatenation (texts : list string) : string :=
  foldr String.append "" texts.

(** The text a fragment holds, whether or not the flattening shows it: the
    literal text of a plain fragment, the value of a simple one, the display
    value of the element of a complex one. *)
Definition fragment_text (part : MixedContainer) : string :=
  match part with
  | CategoryText text => text
  | CategorySimple _ value => value
  | CategoryComplex _ element => refTextType.valueOf_ element
  end.

(** The fragments that show something. *)
Definition is_text_or_ref (part : MixedContainer) : bool :=
  match part with
  | CategoryText _ => true
  | CategoryComplex name _ => String.eqb name "ref"
  | CategorySimple _ _ => false
  end.

(** The [Param] the specification expects at position [i] for a declared
    parameter. *)
Definition param_record (i : nat) (dox_param : paramType.t) : value :=
  VObj ClsParam
    [("index", VInt (Z.of_nat i));
     ("desc", VStr "");
     ("name", opt_str (paramType.declname dox_param));
     ("type", VStr (parse_type (paramType.get_type dox_param)))].

(** The kinds the specification names. *)
Definition parsed_kinds : list string := ["file"; "group"; "struct"; "class"; "union"].
Definition silent_kinds : list string := ["page"; "dir"; "category"; "concept"; "example"].

(** The text of the two warnings. *)
Definition unknown_kind_warning (kind : string) : string :=
  warning ("Unknown doxygen compound kind: " +:+ dquote +:+ kind +:+ dquote).
Definition unexpected_kind_warning (kind : string) : string :=
  warning ("Unexpected doxygen compound kind: " +:+ dquote +:+ kind +:+ dquote).

Definition listed_kind_known (compound : CompoundType.t) : Prop :=
  CompoundType.kind compound ∈ parsed_kinds.
Definition listed_kind_unknown (compound : CompoundType.t) : Prop :=
  (CompoundType.kind compound ∉ parsed_kinds) ∧
  (CompoundType.kind compound ∉ silent_kinds).

#[global] Instance listed_kind_known_dec c : Decision (listed_kind_known c).
Proof. unfold listed_kind_known. apply _. Defined.
#[global] Instance listed_kind_unknown_dec c : Decision (listed_kind_unknown c).
Proof. unfold listed_kind_unknown. apply _. Defined.

(** [node] is [node0] after some calls of [add_child]. *)
Definition grown_from (node0 node : obj) : Prop :=
  (∃ v, getattr node "children_ids" = Ok v ∧ is_ids v = true) ∧
  cls node = cls node0 ∧
  ∀ a, a ≠ "children_ids" → dict_get (dict node) a = dict_get (dict node0) a.

Definition defined_kind_known (compound : compounddefType.t) : Prop :=
  compounddefType.kind compound ∈ parsed_kinds.
Definition defined_kind_unknown (compound : compounddefType.t) : Prop :=
  compounddefType.kind compound ∉ parsed_kinds.

#[global] Instance defined_kind_known_dec c : Decision (defined_kind_known c).
Proof. unfold defined_kind_known. apply _. Defined.
#[global] Instance defined_kind_unknown_dec c : Decision (defined_kind_unknown c).
Proof. unfold defined_kind_unknown. apply _. Defined.

(** The triples of the specification: [(f(item), item, index)], in input
    order, indices from 0. *)
Definition triples {A B : Type} (f : A → B) (xs : list A) : list (B * A * Z) :=
  imap (λ i x, (f x, x, Z.of_nat i)) xs.

(** A header with nothing in it, and the index and the documents of a run
    over it alone. *)
Definition empty_header : compounddefType.t :=
  compounddefType.mk "file" "a_8h" "a.h" None None None None None.

Definition calm : environment := Environment (Some 4%Z) [] (λ _, 0).

Definition at_start : globals := Globals [] None None None [].

(** A run that uses the pool: twenty-two compounds that are kept, among
    them a header with a function and a struct, a union, a class and a
    group, besides a page and a namespace; four workers whose chunks finish
    out of order, and draws that move the ids about. *)
Definition busy : environment := Environment (Some 4%Z) [3; 1; 0; 2] (λ n, n `div` 2).

Definition library_index : list CompoundType.t :=
  [CompoundType.mk "a_8h" "file"; CompoundType.mk "group__core" "group";
   CompoundType.mk "indexpage" "page"; CompoundType.mk "structfoo" "struct";
   CompoundType.mk "unionbar" "union"; CompoundType.mk "namespacens" "namespace";
   CompoundType.mk "classbaz" "class"]
  ++ ((λ refid, CompoundType.mk refid "file")
        <$> ["b_8h"; "c_8h"; "d_8h"; "e_8h"; "f_8h"; "g_8h"; "h_8h"; "i_8h";
             "j_8h"; "k_8h"; "l_8h"; "m_8h"; "n_8h"; "o_8h"; "p_8h"; "q_8h";
             "r_8h"]).

Definition library_document (compound : CompoundType.t) : compounddefType.t :=
  let refid := CompoundType.refid compound in
  compounddefType.mk (CompoundType.kind compound) refid refid None None None None
    (if String.eqb refid "a_8h"
     then Some [sectiondefType.mk []
                  (Some [memberdefType.mk "function" "a_8h_1f" "f" None
                           [paramType.mk (Some "p")
                              (Some (linkedTextType.mk [CategoryText "int"]))]
                           None])]
     else None).

Definition library_documents : documents :=
  list_to_map
    ((λ compound, (CompoundType.refid compound +:+ ".xml",
                   [library_document compound]))
       <$> filter listed_kind_known library_index).

(** The same documents, the one of the header [l_8h] missing. *)
Definition library_documents_but_one : documents :=
  delete "l_8h.xml" library_documents.

(** A future is either not done or holds the outcome of its own task. *)
Definition settled {T R : Type} (task : T → res R) (t : T)
    (fut : option (res R)) : Prop :=
  fut = None ∨ fut = Some (task t).

(** The [Function] node of a member definition, written out. *)
Definition function_node (memberdef : memberdefType.t) : obj :=
  setattr
    (setattr
       (setattr
          (parse_location
             (Function.init (memberdefType.id memberdef)
                            (memberdefType.name memberdef))
             memberdef)
          "desc" (VStr ""))
       "params" (VList (imap param_record (memberdefType.param memberdef))))
    "return_type" (VStr (parse_type (memberdefType.get_type memberdef))).

Definition is_function (memberdef : memberdefType.t) : Prop :=
  memberdefType.kind memberdef = "function".

#[global] Instance is_function_dec m : Decision (is_function m).
Proof. unfold is_function. apply _. Defined.

(** The function members a section defines, and those of a compound, in
    document order. *)
Definition section_functions (sectiondef : sectiondefType.t)
  : list memberdefType.t :=
  filter is_function (or_empty (sectiondefType.memberdef sectiondef)).

Definition function_members (compound : compounddefType.t)
  : list memberdefType.t :=
  or_empty (compounddefType.sectiondef compound) ≫= section_functions.

(** The ids a section attaches to its container: its member references,
    then the functions it defines. *)
Definition section_child_ids (sectiondef : sectiondefType.t) : list string :=
  (MemberType.refid <$> sectiondefType.member sectiondef)
  ++ (memberdefType.id <$> section_functions sectiondef).

(** The ids a file or group compound attaches to its node: the inner classes,
    the inner groups, then section after section. *)
Definition child_ids (compound : compounddefType.t) : list string :=
  (refType.refid <$> (or_empty (compounddefType.innerclass compound)
                      ++ or_empty (compounddefType.innergroup compound)))
  ++ (or_empty (compounddefType.sectiondef compound) ≫= section_child_ids).

(** A node whose children are the given ids: untouched when there is none. *)
Definition with_children (node : obj) (ids : list string) : obj :=
  match ids with
  | [] => node
  | _ => setattr node "children_ids" (VSet (list_to_set ids))
  end.

(** A node once its location and description are filled in. *)
Definition described `{Located T} (node : obj) (compound : T) : obj :=
  setattr (parse_location node compound) "desc" (VStr "").

(** A node that has never had a child. *)
Definition childless (node : obj) : Prop :=
  dict_get (dict node) "children_ids" = None ∧
  getattr node "children_ids" = Ok VNone.

(** What [children_ids] holds for the ids attached: [None] when there is
    none, their set otherwise. *)
Definition children_value (ids : list string) : value :=
  match ids with [] => VNone | _ => VSet (list_to_set ids) end.

(** The member of a rendered object under a key. *)
Definition json_member (j : json) (key : string) : option json :=
  match j with
  | JObj members => snd <$> List.find (λ kv, String.eqb kv.1 key) members
  | _ => None
  end.

(** The object a [Param] is rendered as. *)
Definition param_json (i : nat) (dox_param : paramType.t) : json :=
  JObj [("index", JNum (Z.of_nat i));
        ("desc", JStr "");
        ("name", match paramType.declname dox_param with
                 | Some name => JStr name
                 | None => JNull
                 end);
        ("type", JStr (parse_type (paramType.get_type dox_param)))].

(** A node no other node points back to and with no description. *)
Definition unlinked (node : obj) : Prop :=
  getattr node "parent_ids" = Ok VNone ∧ getattr node "desc" = Ok (VStr "").

(** The number of workers a pool is created with, and the chunk size used
    for a collection of [n] items. *)
Definition workers (env : environment) : Z :=
  match cpu_count env with
  | None => 1%Z
  | Some w => if (w <? 1)%Z then 1%Z else w
  end.

Definition chunk_size (env : environment) (n : nat) : Z :=
  ((Z.of_nat n + workers env - 1) `div` workers env)%Z.

(** What a run returned, or [d] if it raised. *)
Definition returned {A : Type} (d : A) (r : res A) : A :=
  match r with Ok a => a | Raise _ => d end.

(** * Properties *)

(** ** Attribute access *)

Section attributes.
Implicit Types (d : list (string * value)) (o : obj) (a b : string) (v w : value).

Lemma dict_get_set_eq d a v : dict_get (dict_set d a v) a = Some v.
Proof.
  induction d as [|[k u] d IH]; simpl.
  - by rewrite String.eqb_refl.
  - destruct (String.eqb k a) eqn:E; simpl; by rewrite E.
Qed.

Lemma dict_get_set_ne d a b v :
  a ≠ b → dict_get (dict_set d a v) b = dict_get d b.
Proof.
  intros Hne. induction d as [|[k u] d IH]; simpl.
  - by apply String.eqb_neq in Hne as ->.
  - destruct (String.eqb k a) eqn:E; simpl; [|by rewrite IH].
    apply String.eqb_eq in E as ->. by apply String.eqb_neq in Hne as ->.
Qed.

Lemma dict_set_set d a v w : dict_set (dict_set d a v) a w = dict_set d a w.
Proof.
  induction d as [|[k u] d IH]; simpl.
  - by rewrite String.eqb_refl.
  - destruct (String.eqb k a) eqn:E; simpl; rewrite E; by rewrite ?IH.
Qed.

Lemma dict_set_id d a v : dict_get d a = Some v → dict_set d a v = d.
Proof.
  induction d as [|[k u] d IH]; simpl; [done|].
  destruct (String.eqb k a); [by intros [= ->]|]. intros H. by rewrite IH.
Qed.

Lemma getattr_setattr_eq o a v : getattr (setattr o a v) a = Ok v.
Proof. unfold getattr, setattr; simpl. by rewrite dict_get_set_eq. Qed.

Lemma getattr_setattr_ne o a b v :
  a ≠ b → getattr (setattr o a v) b = getattr o b.
Proof. intros. unfold getattr, setattr; simpl. by rewrite dict_get_set_ne. Qed.

Lemma setattr_setattr o a v w : setattr (setattr o a v) a w = setattr o a w.
Proof. unfold setattr; simpl. by rewrite dict_set_set. Qed.

Lemma setattr_id o a v : dict_get (dict o) a = Some v → setattr o a v = o.
Proof. destruct o as [c d]. unfold setattr; simpl. intros. by rewrite dict_set_id. Qed.

Lemma dict_setattr_eq o a v : dict_get (dict (setattr o a v)) a = Some v.
Proof. apply dict_get_set_eq. Qed.

Lemma dict_setattr_ne o a b v :
  a ≠ b → dict_get (dict (setattr o a v)) b = dict_get (dict o) b.
Proof. apply dict_get_set_ne. Qed.

Lemma cls_setattr o a v : cls (setattr o a v) = cls o.
Proof. done. Qed.
End attributes.

(** ** Relationship sets *)

Section relationship_sets.
Implicit Types (self node : obj) (p c a : string) (s : gset string).

Lemma add_parent_eq self v p :
  getattr self "parent_ids" = Ok v → is_ids v = true →
  Node.add_parent self p
  = Ok (setattr self "parent_ids" (VSet ({[p]} ∪ ids_of v))).
Proof.
  intros Hv Hok. unfold Node.add_parent. rewrite Hv; simpl.
  destruct v as [| | | |s| |]; try done; simpl.
  - rewrite getattr_setattr_eq; simpl. by rewrite setattr_setattr.
  - case_bool_decide as Hs; simpl.
    + rewrite getattr_setattr_eq; simpl. by rewrite setattr_setattr, Hs.
    + by rewrite Hv.
Qed.

Lemma add_child_eq self v c :
  getattr self "children_ids" = Ok v → is_ids v = true →
  Node.add_child self c
  = Ok (setattr self "children_ids" (VSet ({[c]} ∪ ids_of v))).
Proof.
  intros Hv Hok. unfold Node.add_child. rewrite Hv; simpl.
  destruct v as [| | | |s| |]; try done; simpl.
  - rewrite getattr_setattr_eq; simpl. by rewrite setattr_setattr.
  - case_bool_decide as Hs; simpl.
    + rewrite getattr_setattr_eq; simpl. by rewrite setattr_setattr, Hs.
    + by rewrite Hv.
Qed.

Lemma constructed_none node :
  constructed node →
  getattr node "parent_ids" = Ok VNone ∧ getattr node "children_ids" = Ok VNone.
Proof. by destruct 1 as [| |? ? []| |]. Qed.

Lemma constructed_well_formed node : constructed node → well_formed node.
Proof. intros [??]%constructed_none. split; by exists VNone. Qed.

Lemma mutate_well_formed node m :
  well_formed node → assigns_other m = true →
  ∃ node', mutate node m = Ok node' ∧ well_formed node' ∧
    (is_add_parent m = false →
       getattr node' "parent_ids" = getattr node "parent_ids") ∧
    (is_add_child m = false →
       getattr node' "children_ids" = getattr node "children_ids").
Proof.
  intros [(vp & Hp & Hvp) (vc & Hc & Hvc)] Hm. destruct m as [p|c|a v]; simpl.
  - rewrite (add_parent_eq _ _ _ Hp Hvp). eexists; split; [done|].
    repeat split; try done.
    + eexists. by rewrite getattr_setattr_eq.
    + exists vc. by rewrite getattr_setattr_ne.
    + intros _. by rewrite getattr_setattr_ne.
  - rewrite (add_child_eq _ _ _ Hc Hvc). eexists; split; [done|].
    repeat split; try done.
    + exists vp. by rewrite getattr_setattr_ne.
    + eexists. by rewrite getattr_setattr_eq.
    + intros _. by rewrite getattr_setattr_ne.
  - simpl in Hm. apply andb_prop in Hm as [H1 H2].
    apply negb_true_iff, String.eqb_neq in H1, H2.
    eexists; split; [done|]. unfold well_formed.
    rewrite !getattr_setattr_ne by done. eauto 10.
Qed.

Lemma mutations_well_formed ms node :
  well_formed node → forallb assigns_other ms = true →
  ∃ node', for_each ms mutate node = Ok node' ∧ well_formed node' ∧
    (existsb is_add_parent ms = false →
       getattr node' "parent_ids" = getattr node "parent_ids") ∧
    (existsb is_add_child ms = false →
       getattr node' "children_ids" = getattr node "children_ids").
Proof.
  revert node. induction ms as [|m ms IH]; intros node Hwf Hms; simpl.
  - by exists node.
  - simpl in Hms. apply andb_prop in Hms as [Hm Hms].
    destruct (mutate_well_formed node m Hwf Hm) as (n1 & -> & Hwf1 & Hp1 & Hc1).
    simpl. destruct (IH n1 Hwf1 Hms) as (n2 & -> & Hwf2 & Hp2 & Hc2).
    exists n2. repeat split; try done; try apply Hwf2.
    + intros [??]%orb_false_elim. by rewrite Hp2, Hp1.
    + intros [??]%orb_false_elim. by rewrite Hc2, Hc1.
Qed.
End relationship_sets.

(** C9.  A node comes out of its constructor with [parent_ids] and
    [children_ids] equal to [None], and they stay [None] through every later
    mutation until the first [add_parent] (respectively [add_child]).  On the
    node [n] reached, [add_parent p] returns a node whose [parent_ids] is a
    set that contains [p] (the former members and [p]); adding [p] again
    changes nothing; and every other attribute (so [id], [kind], [name],
    [file], [line], [desc]) reads as before.  The same holds for
    [add_child]. *)
Theorem relationship_sets_grow_only node ms p c :
  constructed node → forallb assigns_other ms = true →
  ∃ n, for_each ms mutate node = Ok n ∧
    (existsb is_add_parent ms = false → getattr n "parent_ids" = Ok VNone) ∧
    (existsb is_add_child ms = false → getattr n "children_ids" = Ok VNone) ∧
    (∃ n' old,
       getattr n "parent_ids" = Ok old ∧
       Node.add_parent n p = Ok n' ∧
       getattr n' "parent_ids" = Ok (VSet ({[p]} ∪ ids_of old)) ∧
       p ∈ ids_of (VSet ({[p]} ∪ ids_of old)) ∧
       Node.add_parent n' p = Ok n' ∧
       ∀ a, a ≠ "parent_ids" → getattr n' a = getattr n a) ∧
    (∃ n' old,
       getattr n "children_ids" = Ok old ∧
       Node.add_child n c = Ok n' ∧
       getattr n' "children_ids" = Ok (VSet ({[c]} ∪ ids_of old)) ∧
       c ∈ ids_of (VSet ({[c]} ∪ ids_of old)) ∧
       Node.add_child n' c = Ok n' ∧
       ∀ a, a ≠ "children_ids" → getattr n' a = getattr n a).
Proof.
  intros Hnew Hms.
  destruct (constructed_none node Hnew) as [Hp0 Hc0].
  destruct (mutations_well_formed ms node (constructed_well_formed _ Hnew) Hms)
    as (n & Hrun & [(vp & Hp & Hvp) (vc & Hc & Hvc)] & Hkp & Hkc).
  exists n. split; [done|].
  split; [intros H; by rewrite Hkp|].
  split; [intros H; by rewrite Hkc|].
  split.
  - exists (setattr n "parent_ids" (VSet ({[p]} ∪ ids_of vp))), vp.
    split; [done|]. split; [by apply add_parent_eq|].
    split; [apply getattr_setattr_eq|]. split; [simpl; set_solver|].
    split; [|intros a Ha; by apply getattr_setattr_ne].
    erewrite add_parent_eq; [|apply getattr_setattr_eq|done].
    rewrite setattr_setattr. simpl.
    by rewrite (assoc_L (∪)), (idemp_L (∪)).
  - exists (setattr n "children_ids" (VSet ({[c]} ∪ ids_of vc))), vc.
    split; [done|]. split; [by apply add_child_eq|].
    split; [apply getattr_setattr_eq|]. split; [simpl; set_solver|].
    split; [|intros a Ha; by apply getattr_setattr_ne].
    erewrite add_child_eq; [|apply getattr_setattr_eq|done].
    rewrite setattr_setattr. simpl.
    by rewrite (assoc_L (∪)), (idemp_L (∪)).
Qed.

Lemma relationship_sets_grow_only_witness :
  ∃ n, for_each [Assign "desc" (VStr ""); AddChild "x"] mutate (File "a_8h" "a.h")
       = Ok n ∧
    (existsb is_add_parent [Assign "desc" (VStr ""); AddChild "x"] = false →
       getattr n "parent_ids" = Ok VNone) ∧
    (existsb is_add_child [Assign "desc" (VStr ""); AddChild "x"] = false →
       getattr n "children_ids" = Ok VNone) ∧
    (∃ n' old,
       getattr n "parent_ids" = Ok old ∧
       Node.add_parent n "g" = Ok n' ∧
       getattr n' "parent_ids" = Ok (VSet ({["g"]} ∪ ids_of old)) ∧
       "g" ∈ ids_of (VSet ({["g"]} ∪ ids_of old)) ∧
       Node.add_parent n' "g" = Ok n' ∧
       ∀ a, a ≠ "parent_ids" → getattr n' a = getattr n a) ∧
    (∃ n' old,
       getattr n "children_ids" = Ok old ∧
       Node.add_child n "y" = Ok n' ∧
       getattr n' "children_ids" = Ok (VSet ({["y"]} ∪ ids_of old)) ∧
       "y" ∈ ids_of (VSet ({["y"]} ∪ ids_of old)) ∧
       Node.add_child n' "y" = Ok n' ∧
       ∀ a, a ≠ "children_ids" → getattr n' a = getattr n a).
Proof.
  apply (relationship_sets_grow_only (File "a_8h" "a.h")
           [Assign "desc" (VStr ""); AddChild "x"] "g" "y").
  - constructor.
  - reflexivity.
Defined.

(** ** Location resolution *)

Lemma list_ascii_of_string_app s t :
  list_ascii_of_string (s +:+ t) = list_ascii_of_string s ++ list_ascii_of_string t.
Proof. induction s as [|a s IH]; simpl; [done|by rewrite IH]. Qed.

Lemma string_of_list_ascii_app k l :
  string_of_list_ascii (k ++ l) = string_of_list_ascii k +:+ string_of_list_ascii l.
Proof. induction k as [|a k IH]; simpl; [done|by rewrite IH]. Qed.

(** [endswith] holds exactly of the strings that are something followed by
    the suffix. *)
Lemma endswith_spec s suffix :
  endswith s suffix = true ↔ ∃ stem, s = stem +:+ suffix.
Proof.
  unfold endswith. rewrite bool_decide_eq_true. split.
  - intros [k Hk]. exists (string_of_list_ascii k).
    rewrite <- (string_of_list_ascii_of_string s), Hk, string_of_list_ascii_app.
    by rewrite string_of_list_ascii_of_string.
  - intros [stem ->]. exists (list_ascii_of_string stem).
    apply list_ascii_of_string_app.
Qed.

Lemma is_header_spec f : is_header f = true ↔ ∃ s, header_file f s.
Proof.
  unfold is_header, header_file, HEADER_FILE_EXTENSION. split.
  - destruct f as [[s|]|]; try done. intros [_ Hs]%andb_prop.
    exists s. split; [done|]. by apply endswith_spec.
  - intros (s & -> & Hs). apply andb_true_intro. split.
    + destruct Hs as [stem ->]. simpl. apply negb_true_iff, String.eqb_neq.
      by destruct stem.
    + by apply endswith_spec.
Qed.

Lemma is_header_false f s : is_header f = false → ¬ header_file f s.
Proof.
  intros Hf Hs. assert (is_header f = true) by (apply is_header_spec; eauto).
  congruence.
Qed.

Lemma resolved_intro node f l :
  resolved (setattr (setattr node "file" f) "line" l) f l.
Proof.
  split; [|apply getattr_setattr_eq].
  rewrite getattr_setattr_ne by done. apply getattr_setattr_eq.
Qed.

Lemma file_value_header f s : header_file f s → file_value f = VStr s.
Proof. by intros [-> _]. Qed.

(** [parse_location] assigns [file] and [line] and nothing else. *)
Lemma parse_location_frame `{Located T} (node : obj) (compound : T) a :
  a ≠ "file" → a ≠ "line" →
  dict_get (dict (parse_location node compound)) a = dict_get (dict node) a.
Proof.
  intros Hf Hl. unfold parse_location.
  destruct (get_location compound) as [loc|];
    [destruct (is_header _); [|destruct (is_header _); [|destruct (is_header _)]]|];
    by rewrite !dict_setattr_ne.
Qed.

Lemma cls_parse_location `{Located T} (node : obj) (compound : T) :
  cls (parse_location node compound) = cls node.
Proof.
  unfold parse_location.
  destruct (get_location compound) as [loc|];
    [destruct (is_header _); [|destruct (is_header _); [|destruct (is_header _)]]|];
    done.
Qed.

Lemma line_value_number l : line_value l = line_number l.
Proof. by destruct l as [[z|]|]. Qed.

(** C4.  [parse_location] resolves a node to the first candidate pair, in the
    order body, primary, declaration, whose file name ends with [.h]: the
    node's file is that name and its line the line of that pair.  Without a
    location record, or when no candidate qualifies, the file is the empty
    string and the line is [None].  In particular a record with no body
    file, a primary file that is not a header and a declaration file that
    is one resolves to the declaration file. *)
Theorem parse_location_first_header `{Located T} (node : obj) (compound : T) :
  let n := parse_location node compound in
  match get_location compound with
  | None => resolved n (VStr "") VNone
  | Some loc =>
      (∀ i f l s,
         candidates loc !! i = Some (f, l) → header_file f s →
         (∀ j f' l' s', j < i → candidates loc !! j = Some (f', l') →
                        ¬ header_file f' s') →
         resolved n (VStr s) (line_number l)) ∧
      ((∀ f l s, (f, l) ∈ candidates loc → ¬ header_file f s) →
       resolved n (VStr "") VNone) ∧
      (∀ f d,
         (locationType.bodyfile loc = None ∨ locationType.bodyfile loc = Some None) →
         locationType.file loc = Some (Some f) → (¬ ∃ stem, f = stem +:+ ".h") →
         header_file (locationType.declfile loc) d →
         resolved n (VStr d) (line_number (locationType.declline loc)))
  end.
Proof.
  intros n. subst n. unfold parse_location.
  destruct (get_location compound) as [loc|]; [|apply resolved_intro].
  rewrite !line_value_number.
  destruct (is_header (locationType.bodyfile loc)) eqn:Hb;
    [|destruct (is_header (locationType.file loc)) eqn:Hf;
      [|destruct (is_header (locationType.declfile loc)) eqn:Hd]].
  - apply is_header_spec in Hb as [sb Hb]. split; [|split].
    + intros [|i] f l s Hi Hs Hmin; simplify_eq/=.
      * rewrite (file_value_header _ _ Hs). apply resolved_intro.
      * by destruct (Hmin 0 _ _ sb ltac:(lia) eq_refl).
    + intros Hnone.
      destruct (Hnone (locationType.bodyfile loc) (locationType.bodystart loc) sb);
        [unfold candidates; set_solver|done].
    + intros f d [E|E] _ _ _; destruct Hb as [Hb _]; congruence.
  - apply is_header_spec in Hf as [sf Hf]. split; [|split].
    + intros [|[|i]] f l s Hi Hs Hmin; simplify_eq/=.
      * by apply is_header_false with (s := s) in Hb.
      * rewrite (file_value_header _ _ Hs). apply resolved_intro.
      * by destruct (Hmin 1 _ _ sf ltac:(lia) eq_refl).
    + intros Hnone.
      destruct (Hnone (locationType.file loc) (locationType.line loc) sf);
        [unfold candidates; set_solver|done].
    + intros f d _ Ef Hnot _. destruct Hf as [Ef' Hf].
      rewrite Ef in Ef'. simplify_eq. by destruct Hnot.
  - apply is_header_spec in Hd as [sd Hd]. split; [|split].
    + intros [|[|[|i]]] f l s Hi Hs Hmin; simplify_eq/=.
      * by apply is_header_false with (s := s) in Hb.
      * by apply is_header_false with (s := s) in Hf.
      * rewrite (file_value_header _ _ Hs). apply resolved_intro.
    + intros Hnone.
      destruct (Hnone (locationType.declfile loc) (locationType.declline loc) sd);
        [unfold candidates; set_solver|done].
    + intros f d _ _ _ Hd'. rewrite (file_value_header _ _ Hd'). apply resolved_intro.
  - split; [|split].
    + intros [|[|[|i]]] f l s Hi Hs Hmin; simplify_eq/=.
      * by apply is_header_false with (s := s) in Hb.
      * by apply is_header_false with (s := s) in Hf.
      * by apply is_header_false with (s := s) in Hd.
    + intros _. apply resolved_intro.
    + intros f d _ _ _ Hd'. by apply is_header_false with (s := d) in Hd.
Qed.

(** ** Type flattening *)

Lemma append_cons a (s t : string) : String a s +:+ t = String a (s +:+ t).
Proof. done. Qed.

Lemma append_nil_r (s : string) : s +:+ "" = s.
Proof. induction s as [|a s IH]; [done|]. by rewrite append_cons, IH. Qed.

Lemma append_assoc (s t u : string) : (s +:+ t) +:+ u = s +:+ (t +:+ u).
Proof. induction s as [|a s IH]; [done|]. by rewrite !append_cons, IH. Qed.

(** The loop of [parse_type], from any value of [result]. *)
Lemma parse_type_loop (parts : list MixedContainer) (result : string) :
  foldl (λ result part,
           match part with
           | CategoryText value => result +:+ value
           | CategoryComplex name value =>
               if String.eqb name "ref"
               then result +:+ refTextType.valueOf_ value
               else result
           | CategorySimple _ _ => result
           end) result parts
  = result +:+ concatenation (omap display parts).
Proof.
  revert result. induction parts as [|part parts IH]; intros result; simpl.
  - by rewrite append_nil_r.
  - rewrite IH. destruct part as [text|name text|name ref]; simpl.
    + by rewrite append_assoc.
    + done.
    + case_decide as Hname.
      * subst name. simpl. by rewrite append_assoc.
      * apply String.eqb_neq in Hname. by rewrite Hname.
Qed.

(** C5.  [parse_type] of a type record is the in-order concatenation of what
    its plain and reference fragments show; the fragments [const ], a
    reference displayed as [foo], and [ *] flatten to [const foo *]; an
    absent type record flattens to [void]. *)
Theorem parse_type_flattens :
  (∀ type : linkedTextType.t,
     parse_type (Some type)
     = concatenation (omap display (linkedTextType.content_ type))) ∧
  (∀ refid,
     parse_type (Some (linkedTextType.mk
       [CategoryText "const ";
        CategoryComplex "ref" (refTextType.mk refid "foo");
        CategoryText " *"]))
     = "const foo *") ∧
  parse_type None = "void".
Proof.
  split; [|done]. intros type. unfold parse_type. by rewrite parse_type_loop.
Qed.

Lemma omap_display_cons (part : MixedContainer) (parts : list MixedContainer) :
  omap display (part :: parts)
  = match display part with
    | Some text => text :: omap display parts
    | None => omap display parts
    end.
Proof. done. Qed.

Lemma omap_display_filter (parts : list MixedContainer) :
  omap display (filter (λ part, is_text_or_ref part = true) parts)
  = omap display parts.
Proof.
  induction parts as [|part parts IH]; [done|].
  rewrite omap_display_cons.
  destruct (is_text_or_ref part) eqn:Hpart.
  - rewrite filter_cons_True by done. by rewrite omap_display_cons, IH.
  - rewrite filter_cons_False by congruence. rewrite IH.
    destruct part as [text|name text|name ref]; simpl in *; try done.
    case_decide as Hname; [|done]. by subst name.
Qed.

Lemma omap_display_texts (parts : list MixedContainer) :
  omap display parts
  = fragment_text <$> filter (λ part, is_text_or_ref part = true) parts.
Proof.
  induction parts as [|part parts IH]; [done|].
  rewrite omap_display_cons, IH.
  destruct (is_text_or_ref part) eqn:Hpart.
  - rewrite filter_cons_True by done. rewrite fmap_cons.
    destruct part as [text|name text|name ref]; simpl in *; try done.
    apply String.eqb_eq in Hpart as ->. by rewrite decide_True.
  - rewrite filter_cons_False by congruence.
    destruct part as [text|name text|name ref]; simpl in *; try done.
    apply String.eqb_neq in Hpart. by rewrite decide_False.
Qed.

(** C10.  A complex fragment whose element name is not [ref] adds nothing to
    what [parse_type] returns: dropping it from the record, wherever it
    stands, leaves the result as it is; the result is the one computed
    from the plain and [ref] fragments alone; and it is the concatenation,
    in order, of the texts of the plain and [ref] fragments, the text that
    any other fragment holds being left out. *)
Theorem parse_type_skips_other_elements
    (before after : list MixedContainer) (name : string) (value : refTextType.t) :
  name ≠ "ref" →
  parse_type (Some (linkedTextType.mk (before ++ CategoryComplex name value :: after)))
  = parse_type (Some (linkedTextType.mk (before ++ after))) ∧
  (∀ type : linkedTextType.t,
    parse_type (Some type)
    = parse_type (Some (linkedTextType.mk
        (filter (λ part, is_text_or_ref part = true) (linkedTextType.content_ type))))) ∧
  (∀ type : linkedTextType.t,
    parse_type (Some type)
    = concatenation
        (fragment_text
           <$> filter (λ part, is_text_or_ref part = true)
                 (linkedTextType.content_ type))) ∧
  parse_type (Some (linkedTextType.mk
    (before ++ CategoryComplex name value :: after)))
  = concatenation
      (fragment_text <$> filter (λ part, is_text_or_ref part = true) before)
    +:+ concatenation
      (fragment_text <$> filter (λ part, is_text_or_ref part = true) after).
Proof.
  intros Hname.
  assert (∀ parts, parse_type (Some (linkedTextType.mk parts))
                   = concatenation
                       (fragment_text
                          <$> filter (λ part, is_text_or_ref part = true) parts))
    as Htexts.
  { intros parts. unfold parse_type; simpl.
    by rewrite parse_type_loop, omap_display_texts. }
  split; [|split; [|split]].
  - unfold parse_type; simpl. rewrite !parse_type_loop, !omap_app; simpl.
    by rewrite decide_False.
  - intros type. unfold parse_type; simpl.
    by rewrite !parse_type_loop, omap_display_filter.
  - intros [parts]. apply Htexts.
  - rewrite Htexts, filter_app, filter_cons_False, fmap_app.
    + unfold concatenation. rewrite foldr_app.
      generalize (fragment_text <$> filter (λ part, is_text_or_ref part = true) after).
      intros texts.
      induction (fragment_text <$> filter (λ part, is_text_or_ref part = true) before)
        as [|text rest IH]; simpl; [done|].
      by rewrite IH, append_assoc.
    + simpl. apply String.eqb_neq in Hname. by rewrite Hname.
Qed.

Lemma parse_type_skips_other_elements_witness :
  parse_type (Some (linkedTextType.mk
    ([CategoryText "struct "]
     ++ CategoryComplex "bold" (refTextType.mk "x" "y")
     :: [CategoryComplex "ref" (refTextType.mk "structfoo" "foo")])))
  = parse_type (Some (linkedTextType.mk
      ([CategoryText "struct "]
       ++ [CategoryComplex "ref" (refTextType.mk "structfoo" "foo")]))) ∧
  (∀ type : linkedTextType.t,
    parse_type (Some type)
    = parse_type (Some (linkedTextType.mk
        (filter (λ part, is_text_or_ref part = true) (linkedTextType.content_ type))))) ∧
  (∀ type : linkedTextType.t,
    parse_type (Some type)
    = concatenation
        (fragment_text
           <$> filter (λ part, is_text_or_ref part = true)
                 (linkedTextType.content_ type))) ∧
  parse_type (Some (linkedTextType.mk
    ([CategoryText "struct "]
     ++ CategoryComplex "bold" (refTextType.mk "x" "y")
     :: [CategoryComplex "ref" (refTextType.mk "structfoo" "foo")])))
  = concatenation
      (fragment_text
         <$> filter (λ part, is_text_or_ref part = true) [CategoryText "struct "])
    +:+ concatenation
      (fragment_text
         <$> filter (λ part, is_text_or_ref part = true)
               [CategoryComplex "ref" (refTextType.mk "structfoo" "foo")]).
Proof.
  apply (parse_type_skips_other_elements
           [CategoryText "struct "]
           [CategoryComplex "ref" (refTextType.mk "structfoo" "foo")]
           "bold" (refTextType.mk "x" "y")).
  discriminate.
Defined.

(** ** Function parsing *)

Section parse_function.
Implicit Types (func : obj) (l : list value).

Lemma insert_last l (x y : value) : <[length l := y]> (l ++ [x]) = l ++ [y].
Proof. induction l as [|z l IH]; simpl; [done|]. by rewrite IH. Qed.

Lemma lookup_last l (x : value) : (l ++ [x]) !! length l = Some x.
Proof. by apply list_lookup_middle. Qed.

Lemma param_setattr_last func l c d a v :
  getattr func "params" = Ok (VList (l ++ [VObj c d])) →
  Function.param_setattr func (length l) a v
  = Ok (setattr func "params" (VList (l ++ [VObj c (dict_set d a v)]))).
Proof.
  intros Hps. unfold Function.param_setattr. rewrite Hps; simpl.
  by rewrite lookup_last, insert_last.
Qed.

Lemma param_step_appends func l dox_param :
  getattr func "params" = Ok (VList l) →
  param_step func dox_param
  = Ok (setattr func "params" (VList (l ++ [param_record (length l) dox_param]))).
Proof.
  intros Hps. unfold param_step, Function.add_param. rewrite Hps; simpl.
  erewrite param_setattr_last by apply getattr_setattr_eq; simpl.
  erewrite param_setattr_last by apply getattr_setattr_eq; simpl.
  erewrite param_setattr_last by apply getattr_setattr_eq; simpl.
  by rewrite !setattr_setattr.
Qed.

Lemma param_loop params : ∀ func l,
  dict_get (dict func) "params" = Some (VList l) →
  for_each params param_step func
  = Ok (setattr func "params"
          (VList (l ++ imap (λ i, param_record (length l + i)) params))).
Proof.
  induction params as [|dox_param params IH]; intros func l Hps; simpl.
  - rewrite app_nil_r. by rewrite setattr_id.
  - erewrite param_step_appends by (unfold getattr; by rewrite Hps). simpl.
    erewrite IH by (simpl; apply dict_get_set_eq).
    rewrite setattr_setattr, <- app_assoc. simpl.
    rewrite Nat.add_0_r.
    rewrite (imap_ext _ ((λ i, param_record (length l + i)) ∘ S) params); [done|].
    intros i x _. simpl. rewrite length_app. simpl. f_equal. lia.
Qed.

Lemma parse_function_eq (memberdef : memberdefType.t) :
  parse_function memberdef
  = Ok (setattr
          (setattr
             (setattr
                (parse_location
                   (Function.init (memberdefType.id memberdef)
                                  (memberdefType.name memberdef))
                   memberdef)
                "desc" (VStr ""))
             "params" (VList (imap param_record (memberdefType.param memberdef))))
          "return_type" (VStr (parse_type (memberdefType.get_type memberdef)))).
Proof.
  unfold parse_function.
  erewrite (param_loop _ _ []); [done|].
  rewrite dict_setattr_ne, parse_location_frame by done.
  reflexivity.
Qed.
End parse_function.

(** C7.  [parse_function] returns one node, of class [Function], for a member
    definition ([parse_memberdef] returns exactly that node for a member of
    kind [function]).  Its [params] has one [Param] per declared parameter,
    in declaration order: the one at position [i] has [index] [i], the
    flattened type of the [i]-th declared parameter as [type] and its
    declared name as [name].  Its [return_type] is the flattened return
    type, which is [void] when the member has no return-type record. *)
Theorem parse_function_one_param_per_parameter (memberdef : memberdefType.t) :
  ∃ func params,
    parse_function memberdef = Ok func ∧
    (memberdefType.kind memberdef = DoxMemberKind.FUNCTION →
       parse_memberdef memberdef = Ok [func]) ∧
    cls func = ClsFunction ∧
    getattr func "kind" = Ok (VStr "func") ∧
    getattr func "params" = Ok (VList params) ∧
    length params = length (memberdefType.param memberdef) ∧
    (∀ i dox_param,
       memberdefType.param memberdef !! i = Some dox_param →
       ∃ param,
         params !! i = Some (to_value param) ∧
         cls param = ClsParam ∧
         getattr param "index" = Ok (VInt (Z.of_nat i)) ∧
         getattr param "type"
         = Ok (VStr (parse_type (paramType.get_type dox_param))) ∧
         getattr param "name" = Ok (opt_str (paramType.declname dox_param))) ∧
    getattr func "return_type"
    = Ok (VStr (parse_type (memberdefType.get_type memberdef))) ∧
    (memberdefType.get_type memberdef = None →
       getattr func "return_type" = Ok (VStr "void")).
Proof.
  eexists _, (imap param_record (memberdefType.param memberdef)).
  split; [apply parse_function_eq|].
  split.
  { intros Hkind. unfold parse_memberdef.
    by rewrite Hkind, parse_function_eq. }
  split; [by rewrite !cls_setattr, cls_parse_location|].
  split.
  { unfold getattr.
    rewrite !dict_setattr_ne, parse_location_frame, !cls_setattr, cls_parse_location
      by done.
    reflexivity. }
  split; [rewrite getattr_setattr_ne by done; apply getattr_setattr_eq|].
  split; [apply length_imap|].
  split.
  { intros i dox_param Hi. rewrite list_lookup_imap, Hi; simpl.
    by eexists (Obj ClsParam _). }
  split; [apply getattr_setattr_eq|].
  intros ->. apply getattr_setattr_eq.
Qed.

(** ** Loops that cannot raise *)

Lemma for_each_inv {A S : Type} (P : S → Prop) (xs : list A)
    (body : S → A → res S) (s : S) :
  P s →
  (∀ s x, P s → x ∈ xs → ∃ s', body s x = Ok s' ∧ P s') →
  ∃ s', for_each xs body s = Ok s' ∧ P s'.
Proof.
  revert s. induction xs as [|x xs IH]; intros s Hs Hbody; simpl.
  - by exists s.
  - destruct (Hbody s x Hs) as (s1 & -> & Hs1); [set_solver|]. simpl.
    apply IH; [done|]. intros s2 y Hs2 Hy. apply Hbody; [done|set_solver].
Qed.

(** ** Compound kinds *)

Lemma kind_in_spec (kind : string) (kinds : list string) :
  kind_in kind kinds = true ↔ kind ∈ kinds.
Proof.
  unfold kind_in. rewrite existsb_exists. split.
  - intros (k & Hk & ->%String.eqb_eq). by apply list_elem_of_In.
  - intros Hk. exists kind. split; [by apply list_elem_of_In|apply String.eqb_refl].
Qed.

Lemma kind_in_false (kind : string) (kinds : list string) :
  kind_in kind kinds = false ↔ kind ∉ kinds.
Proof. rewrite <- kind_in_spec. by destruct (kind_in kind kinds). Qed.

Lemma collect_ids_loop (index : list CompoundType.t) (err ids : list string) :
  foldl index_step (err, ids) index
  = (err ++ ((unknown_kind_warning ∘ CompoundType.kind) <$> filter listed_kind_unknown index),
     ids ++ (CompoundType.refid <$> filter listed_kind_known index)).
Proof.
  revert err ids. induction index as [|c index IH]; intros err ids.
  - simpl. by rewrite !app_nil_r.
  - rewrite !filter_cons.
    change (foldl index_step (err, ids) (c :: index))
      with (foldl index_step (index_step (err, ids) c) index).
    unfold index_step at 2.
    destruct (kind_in (CompoundType.kind c) kept_kinds) eqn:Hkept.
    + apply kind_in_spec in Hkept.
      rewrite IH, (decide_True (P := listed_kind_known c)) by exact Hkept.
      rewrite (decide_False (P := listed_kind_unknown c))
        by (intros [Hn _]; by apply Hn).
      by rewrite fmap_cons, <- app_assoc.
    + apply kind_in_false in Hkept.
      rewrite (decide_False (P := listed_kind_known c)) by exact Hkept.
      destruct (kind_in (CompoundType.kind c) skipped_kinds) eqn:Hskip.
      * apply kind_in_spec in Hskip.
        rewrite IH, (decide_False (P := listed_kind_unknown c))
          by (intros [_ Hn]; by apply Hn).
        done.
      * apply kind_in_false in Hskip.
        rewrite IH, (decide_True (P := listed_kind_unknown c))
          by (split; [exact Hkept|exact Hskip]).
        by rewrite fmap_cons, <- app_assoc.
Qed.

(** ** The compound parser cannot raise *)

Lemma grown_from_refl node :
  (∃ v, getattr node "children_ids" = Ok v ∧ is_ids v = true) → grown_from node node.
Proof. by intros Hv. Qed.

Lemma add_child_grows node0 node child :
  grown_from node0 node →
  ∃ node', Node.add_child node child = Ok node' ∧ grown_from node0 node'.
Proof.
  intros ((v & Hv & Hids) & Hcls & Hframe).
  rewrite (add_child_eq _ _ _ Hv Hids). eexists; split; [done|].
  split; [|split].
  - eexists. by rewrite getattr_setattr_eq.
  - done.
  - intros a Ha. rewrite dict_setattr_ne by done. by apply Hframe.
Qed.

Lemma parse_function_id (memberdef : memberdefType.t) :
  ∃ func, parse_function memberdef = Ok func ∧
          getattr func "id" = Ok (VStr (memberdefType.id memberdef)).
Proof.
  eexists. split; [apply parse_function_eq|].
  unfold getattr. by rewrite !dict_setattr_ne, parse_location_frame.
Qed.

Lemma parse_memberdef_ok (memberdef : memberdefType.t) :
  ∃ children, parse_memberdef memberdef = Ok children ∧
    Forall (λ child, ∃ id, getattr child "id" = Ok (VStr id)) children.
Proof.
  unfold parse_memberdef. destruct (String.eqb _ _).
  - destruct (parse_function_id memberdef) as (func & -> & Hid). simpl.
    eexists. split; [done|]. constructor; eauto.
  - by exists [].
Qed.

Lemma add_child_node_grows node0 node child :
  grown_from node0 node → (∃ id, getattr child "id" = Ok (VStr id)) →
  ∃ node', add_child_node node child = Ok node' ∧ grown_from node0 node'.
Proof.
  intros Hnode [id Hid]. unfold add_child_node. rewrite Hid. simpl.
  by apply add_child_grows.
Qed.

Lemma parse_file_or_group_ok (node : obj) (compound : compounddefType.t) :
  (∃ v, getattr node "children_ids" = Ok v ∧ is_ids v = true) →
  ∃ first rest,
    parse_file_or_group node compound = Ok (first :: rest) ∧
    cls first = cls node ∧
    ∀ a, a ≠ "children_ids" → a ≠ "file" → a ≠ "line" → a ≠ "desc" →
         dict_get (dict first) a = dict_get (dict node) a.
Proof.
  intros (v & Hv & Hids). unfold parse_file_or_group.
  set (node0 := setattr (parse_location node compound) "desc" (VStr parse_description)).
  assert (grown_from node0 node0) as H0.
  { apply grown_from_refl. exists v. split; [|done].
    unfold node0. rewrite getattr_setattr_ne by done.
    unfold getattr. rewrite parse_location_frame, cls_parse_location by done.
    apply Hv. }
  destruct (for_each_inv (grown_from node0)
              (or_empty (compounddefType.innerclass compound)
               ++ or_empty (compounddefType.innergroup compound))
              (λ node inner_ref, Node.add_child node (refType.refid inner_ref))
              node0 H0) as (node1 & -> & H1).
  { intros s x Hs _. by apply add_child_grows. }
  simpl.
  destruct (for_each_inv (λ state : obj * list obj, grown_from node0 state.1)
              (or_empty (compounddefType.sectiondef compound))
              (λ '(node, rest) sectiondef,
                 node ← for_each (sectiondefType.member sectiondef)
                   (λ node member, Node.add_child node (MemberType.refid member)) node;
                 for_each (or_empty (sectiondefType.memberdef sectiondef))
                   (λ '(node, rest) memberdef,
                      children ← parse_memberdef memberdef;
                      node ← for_each children add_child_node node;
                      mret (node, rest ++ children))
                   (node, rest))
              (node1, []) H1) as ([node2 rest] & -> & H2).
  { intros [s rest] sectiondef Hs _. simpl in Hs.
    destruct (for_each_inv (grown_from node0) (sectiondefType.member sectiondef)
                (λ node member, Node.add_child node (MemberType.refid member))
                s Hs) as (s1 & -> & Hs1).
    { intros s' x Hs' _. by apply add_child_grows. }
    simpl.
    apply (for_each_inv (λ state : obj * list obj, grown_from node0 state.1));
      [done|].
    intros [s2 rest2] memberdef Hs2 _. simpl in Hs2.
    destruct (parse_memberdef_ok memberdef) as (children & -> & Hchildren). simpl.
    destruct (for_each_inv (grown_from node0) children add_child_node s2 Hs2)
      as (s3 & -> & Hs3).
    { intros s' child Hs' Hchild. apply add_child_node_grows; [done|].
      by eapply Forall_forall in Hchildren. }
    simpl. by eexists. }
  simpl. exists node2, rest. split; [done|].
  change (grown_from node0 node2) in H2. destruct H2 as (_ & Hcls & Hframe). split.
  - rewrite Hcls. apply cls_parse_location.
  - intros a ????. rewrite Hframe by done. unfold node0.
    by rewrite dict_setattr_ne, parse_location_frame.
Qed.

Lemma constructed_children_ok node :
  constructed node → ∃ v, getattr node "children_ids" = Ok v ∧ is_ids v = true.
Proof. intros [_ Hc]%constructed_none. by exists VNone. Qed.

Lemma parse_file_ok (compound : compounddefType.t) :
  ∃ first rest,
    parse_file compound = Ok (first :: rest) ∧
    cls first = ClsFile ∧ dict_get (dict first) "kind" = None.
Proof.
  unfold parse_file.
  destruct (parse_file_or_group_ok
              (File (compounddefType.id compound) (compounddefType.compoundname compound))
              compound) as (first & rest & -> & Hcls & Hframe).
  { apply constructed_children_ok. constructor. }
  exists first, rest. split; [done|]. split; [done|]. by rewrite Hframe.
Qed.

Lemma parse_group_ok (compound : compounddefType.t) :
  ∃ first rest,
    parse_group compound = Ok (first :: rest) ∧
    cls first = ClsGroup ∧ dict_get (dict first) "kind" = None.
Proof.
  unfold parse_group.
  destruct (parse_file_or_group_ok
              (setattr (Group (compounddefType.id compound)
                              (compounddefType.compoundname compound))
                 "title" (opt_str (compounddefType.title compound)))
              compound) as (first & rest & -> & Hcls & Hframe).
  { by exists VNone. }
  exists first, rest. split; [done|]. split; [done|]. by rewrite Hframe.
Qed.

(** One turn of the loop of [process_compound]: a compound of a parsed kind
    adds one element to [result] and writes nothing; any other compound adds
    nothing and writes the warning that names its kind. *)
Lemma compound_step_cases (err : list string) (result : list value)
    (compound : compounddefType.t) :
  (defined_kind_known compound ∧
   ∃ entry, compound_step (err, result) compound = Ok (err, result ++ [entry])) ∨
  (defined_kind_unknown compound ∧
   compound_step (err, result) compound
   = Ok (err ++ [unexpected_kind_warning (compounddefType.kind compound)], result)).
Proof.
  unfold compound_step, defined_kind_known, defined_kind_unknown.
  destruct (String.eqb _ CompoundKind.FILE) eqn:Hfile.
  { left. apply String.eqb_eq in Hfile as ->. split; [by left|].
    destruct (parse_file_ok compound) as (first & rest & -> & _). by eexists. }
  destruct (String.eqb _ CompoundKind.GROUP) eqn:Hgroup.
  { left. apply String.eqb_eq in Hgroup as ->. split; [by right; left|].
    destruct (parse_group_ok compound) as (first & rest & -> & _). by eexists. }
  apply String.eqb_neq in Hfile, Hgroup.
  destruct (kind_in _ _) eqn:Hstruct.
  - left. apply kind_in_spec in Hstruct. split; [|by eexists].
    unfold parsed_kinds, CompoundKind.STRUCT, CompoundKind.CLASS, CompoundKind.UNION in *.
    set_unfold. tauto.
  - right. apply kind_in_false in Hstruct. split; [|done].
    unfold parsed_kinds, CompoundKind.FILE, CompoundKind.GROUP,
      CompoundKind.STRUCT, CompoundKind.CLASS, CompoundKind.UNION in *.
    set_unfold. tauto.
Qed.

Lemma process_compound_loop (compounddefs : list compounddefType.t) :
  ∀ err result, ∃ entries,
    for_each compounddefs compound_step (err, result)
    = Ok (err ++ ((unexpected_kind_warning ∘ compounddefType.kind)
                    <$> filter defined_kind_unknown compounddefs),
          result ++ entries) ∧
    length entries = length (filter defined_kind_known compounddefs).
Proof.
  induction compounddefs as [|c cds IH]; intros err result.
  - exists []. by rewrite !app_nil_r.
  - rewrite !filter_cons. cbn [for_each].
    destruct (compound_step_cases err result c) as [[Hk [entry ->]]|[Hk ->]]; simpl.
    + destruct (IH err (result ++ [entry])) as (entries & -> & Hlen).
      exists (entry :: entries).
      rewrite (decide_True (P := defined_kind_known c)) by done.
      rewrite (decide_False (P := defined_kind_unknown c))
        by (intros Hn; by apply Hn).
      rewrite <- app_assoc. split; [done|]. simpl. by rewrite Hlen.
    + destruct (IH (err ++ [unexpected_kind_warning (compounddefType.kind c)]) result)
        as (entries & -> & Hlen).
      exists entries.
      rewrite (decide_False (P := defined_kind_known c)) by done.
      rewrite (decide_True (P := defined_kind_unknown c)) by done.
      by rewrite fmap_cons, <- app_assoc.
Qed.

(** C6.  The first loop of [parse_all] keeps the ids of exactly the listed
    compounds whose kind is one of file, group, struct, class, union, in
    index order, and writes one warning, naming the kind, for each compound
    whose kind is neither one of those nor one of page, dir, category,
    concept, example (which are passed over without a word).
    [process_compound] on a document writes one warning naming the kind for
    each compound definition whose kind is not one of the five, and returns
    one element for each compound definition whose kind is one of them, so
    nothing for the others. *)
Theorem unrecognised_kinds_warn_and_skip :
  (∀ (index : list CompoundType.t) (err : list string),
     collect_ids index err
     = (err ++ ((unknown_kind_warning ∘ CompoundType.kind)
                  <$> filter listed_kind_unknown index),
        CompoundType.refid <$> filter listed_kind_known index)) ∧
  (∀ (docs : documents) (id : string) (compounddefs : list compounddefType.t),
     docs !! (id +:+ ".xml") = Some compounddefs →
     ∃ result,
       process_compound docs id
       = Ok ((unexpected_kind_warning ∘ compounddefType.kind)
               <$> filter defined_kind_unknown compounddefs,
             result) ∧
       length result = length (filter defined_kind_known compounddefs)).
Proof.
  split.
  - intros index err. unfold collect_ids. by rewrite collect_ids_loop.
  - intros docs id cds Hdoc. unfold process_compound. rewrite Hdoc.
    destruct (process_compound_loop cds [] []) as (entries & -> & Hlen).
    by exists entries.
Qed.

(** ** The worker pool *)

Section pool.
Context {T R : Type} (task : T → res R).

Lemma run_pool_step_settled (tasks : list T) (sched : list nat) :
  ∀ futures,
    Forall2 (settled task) tasks futures →
    Forall2 (settled task) tasks
      (foldl (λ futures i,
                match tasks !! i with
                | Some t => <[i := Some (task t)]> futures
                | None => futures
                end) futures sched).
Proof.
  induction sched as [|i sched IH]; intros futures Hfut; simpl; [done|].
  apply IH. destruct (tasks !! i) as [t|] eqn:Hi; [|done].
  rewrite <- (list_insert_id tasks i t Hi).
  apply Forall2_insert; [done|by right].
Qed.

Lemma run_pool_settled (tasks : list T) (sched : list nat) :
  Forall2 (settled task) tasks (run_pool task tasks sched).
Proof.
  apply run_pool_step_settled, Forall2_replicate_r; [done|].
  apply Forall_forall. intros t _. by left.
Qed.

Lemma wait_all_settled (tasks : list T) (futures : list (option (res R))) :
  Forall2 (settled task) tasks futures → wait_all task tasks futures = task <$> tasks.
Proof.
  unfold wait_all. induction 1 as [|t fut tasks futures [->| ->] _ IH]; simpl;
    by rewrite ?IH.
Qed.

(** Whatever the order in which the workers finish, the outcomes read in
    submission order are those of the tasks in submission order. *)
Lemma pool_outcomes_in_order (tasks : list T) (sched : list nat) :
  wait_all task tasks (run_pool task tasks sched) = task <$> tasks.
Proof. apply wait_all_settled, run_pool_settled. Qed.
End pool.

Lemma result_iterator_returns {A B : Type} (f : A → B) (xs : list A) :
  result_iterator ((λ x, Ok (f x)) <$> xs) = (f <$> xs, None).
Proof.
  induction xs as [|x xs IH]; [done|].
  rewrite !fmap_cons. cbn [result_iterator]. by rewrite IH.
Qed.

Lemma builtin_map_returns {A B : Type} (f : A → B) (xs : list A) :
  builtin_map (λ x, Ok (f x)) xs = (f <$> xs, None).
Proof.
  induction xs as [|x xs IH]; [done|].
  rewrite fmap_cons. cbn [builtin_map]. by rewrite IH.
Qed.

Lemma mapM_returns {A B : Type} (f : A → B) (xs : list A) :
  mapM (M := res) (λ x, Ok (f x)) xs = Ok (f <$> xs).
Proof.
  induction xs as [|x xs IH]; [done|].
  rewrite fmap_cons. cbn [mapM]. by rewrite IH.
Qed.

Lemma get_chunks_fuel_concat {A : Type} (chunksize : nat) :
  0 < chunksize →
  ∀ fuel (l : list A), length l < fuel →
    concat (get_chunks_fuel fuel chunksize l) = l.
Proof.
  intros Hsize. induction fuel as [|fuel IH]; intros l Hl; [lia|]. simpl.
  destruct (take chunksize l) as [|x chunk] eqn:Htake.
  - destruct l as [|y l]; [done|]. destruct chunksize; [lia|by simplify_eq/=].
  - simpl. rewrite IH.
    + rewrite app_comm_cons, <- Htake. apply take_drop.
    + rewrite length_drop. destruct l; [by destruct chunksize|]. simpl in *. lia.
Qed.

Lemma get_chunks_concat {A : Type} (chunksize : nat) (l : list A) :
  0 < chunksize → concat (get_chunks chunksize l) = l.
Proof. intros. apply get_chunks_fuel_concat; [done|lia]. Qed.

Lemma concat_fmap_fmap {A B : Type} (f : A → B) (ls : list (list A)) :
  concat ((λ l : list A, f <$> l) <$> ls) = f <$> concat ls.
Proof.
  induction ls as [|l ls IH]; [done|].
  rewrite fmap_cons. cbn [concat]. by rewrite fmap_app, IH.
Qed.

Lemma zip3_triples {A B : Type} (f : A → B) (xs : list A) :
  zip3 (f <$> xs, None) xs (range (length xs)) = (triples f xs, None).
Proof.
  unfold zip3, range, triples. simpl. f_equal.
  assert (∀ k, zip (zip (f <$> xs) xs) (Z.of_nat <$> seq k (length xs))
               = imap (λ i x, (f x, x, Z.of_nat (k + i))) xs) as Hk.
  { induction xs as [|x xs IH]; intros k; simpl; [done|].
    rewrite Nat.add_0_r, IH. f_equal. apply imap_ext. intros i y _. simpl.
    do 2 f_equal. lia. }
  by rewrite Hk.
Qed.

(** [executor.map] of a function that returns on every item: the items'
    results in input order, unless the process pool is given a chunk size
    below one. *)
Lemma executor_map_returns {A B : Type} (executor : Executor) (sched : list nat)
    (f : A → B) (collected : list A) (chunksize : Z) :
  executor_map executor sched (λ x, Ok (f x)) collected chunksize
  = match executor with
    | OfProcesses _ =>
        if (chunksize <? 1)%Z then Raise ValueError else Ok (f <$> collected, None)
    | OfThreads _ => Ok (f <$> collected, None)
    end.
Proof.
  unfold executor_map. destruct executor as [e|e].
  - destruct (chunksize <? 1)%Z eqn:Hsize; [done|]. apply Z.ltb_ge in Hsize.
    rewrite pool_outcomes_in_order.
    rewrite (list_fmap_ext _ (λ chunk, Ok (f <$> chunk))
               (get_chunks (Z.to_nat chunksize) collected))
      by (intros; apply mapM_returns).
    rewrite result_iterator_returns. unfold chain. simpl.
    rewrite concat_fmap_fmap, get_chunks_concat by lia. done.
  - by rewrite pool_outcomes_in_order, result_iterator_returns.
Qed.

(** ** The dispatcher *)

Lemma workers_positive (env : environment) :
  (1 ≤ match cpu_count env with
       | None => 1
       | Some w => if (w <? 1) then 1 else w
       end)%Z.
Proof.
  destruct (cpu_count env) as [w|]; [|done].
  destruct (w <? 1)%Z eqn:Hw; [done|]. by apply Z.ltb_ge in Hw.
Qed.

(** For a function that returns on every item, the dispatcher yields the
    triples in input order, whatever the pool, the processor count and the
    order in which the workers finish, as long as the process pool is not
    handed an empty collection with a threshold below one. *)
Lemma concurrent_pool_iter_in_order {A B : Type} (env : environment)
    (f : A → B) (xs : list A) (use_process : bool) (threshold : Z) (g : globals) :
  use_process = false ∨ xs ≠ [] ∨ (0 < threshold)%Z →
  (concurrent_pool_iter env (λ x, Ok (f x)) xs use_process threshold g).2
  = Ok (triples f xs, None).
Proof.
  intros Hcase. unfold concurrent_pool_iter.
  pose proof (workers_positive env) as Hw.
  set (workers := match cpu_count env with
                  | None => 1%Z
                  | Some w => if (w <? 1)%Z then 1%Z else w
                  end) in *.
  destruct (threshold <=? Z.of_nat (length xs))%Z eqn:Hlen.
  - apply Z.leb_le in Hlen.
    assert (∀ e, executor_map (OfThreads e) (sched env) (λ x, Ok (f x)) xs
                   ((Z.of_nat (length xs) + workers - 1) `div` workers)
                 = Ok (f <$> xs, None)) as Hthreads
      by (intros; by rewrite executor_map_returns).
    assert (use_process = true →
            ∀ e, executor_map (OfProcesses e) (sched env) (λ x, Ok (f x)) xs
                   ((Z.of_nat (length xs) + workers - 1) `div` workers)
                 = Ok (f <$> xs, None)) as Hprocesses.
    { intros -> e. rewrite executor_map_returns.
      assert (1 ≤ Z.of_nat (length xs))%Z as Hne.
      { destruct Hcase as [?|[Hxs|?]]; [done| |lia].
        destruct xs; [done|]. simpl. lia. }
      assert (1 ≤ (Z.of_nat (length xs) + workers - 1) `div` workers)%Z as Hsize
        by (apply Z.div_le_lower_bound; lia).
      apply Z.ltb_ge in Hsize. by rewrite Hsize. }
    destruct use_process.
    + destruct (process_executor _) as [e|]; cbn -[executor_map];
        rewrite Hprocesses by done; simpl; by rewrite zip3_triples.
    + destruct (thread_executor _) as [e|]; cbn -[executor_map];
        rewrite Hthreads; simpl; by rewrite zip3_triples.
  - simpl. by rewrite builtin_map_returns, zip3_triples.
Qed.

(** C8.  Below the threshold the dispatcher returns the triples
    [(f(x0), x0, 0), (f(x1), x1, 1), ...] of the direct sequential mapping,
    and leaves the module's variables as they were: no pool is created and
    none is used. *)
Theorem below_threshold_is_sequential {A B : Type} (env : environment)
    (f : A → B) (xs : list A) (use_process : bool) (threshold : Z) (g : globals) :
  (Z.of_nat (length xs) < threshold)%Z →
  concurrent_pool_iter env (λ x, Ok (f x)) xs use_process threshold g
  = (g, Ok (triples f xs, None)).
Proof.
  intros Hlen. unfold concurrent_pool_iter.
  apply Z.leb_gt in Hlen. rewrite Hlen. simpl.
  by rewrite builtin_map_returns, zip3_triples.
Qed.

Lemma below_threshold_is_sequential_witness :
  concurrent_pool_iter (Environment (Some 4%Z) [2; 0; 1] (λ _, 0))
    (λ x, Ok (x * x)) [3; 5; 7] true 20 (Globals [] None None None [])
  = (Globals [] None None None [],
     Ok (triples (λ x, x * x) [3; 5; 7], None)).
Proof.
  apply (below_threshold_is_sequential
           (Environment (Some 4%Z) [2; 0; 1] (λ _, 0))
           (λ x, x * x) [3; 5; 7] true 20 (Globals [] None None None [])).
  reflexivity.
Defined.

(** C3.  The claim fails on an empty collection when the threshold is below
    one and the process pool is asked for: the chunk size computed from the
    collection is 0, which [ProcessPoolExecutor.map] refuses, so the call
    raises [ValueError] instead of yielding no triple.  (Everywhere else the
    triples come in input order: [concurrent_pool_iter_in_order].) *)
Theorem concurrent_pool_iter_empty_raises {A B : Type} (env : environment)
    (f : A → B) (g : globals) :
  (concurrent_pool_iter env (λ x, Ok (f x)) [] true 0 g).2 = Raise ValueError.
Proof.
  unfold concurrent_pool_iter. simpl.
  pose proof (workers_positive env) as Hw.
  set (workers := match cpu_count env with
                  | None => 1%Z
                  | Some w => if (w <? 1)%Z then 1%Z else w
                  end) in *.
  assert ((Z.of_nat 0 + workers - 1) `div` workers = 0)%Z as Hsize
    by (apply Z.div_small; lia).
  destruct (process_executor _) as [e|]; cbn -[executor_map];
    by rewrite Hsize, executor_map_returns.
Qed.

(** ** The merged collection and the output document *)

Lemma json_keys_encode (c : class) (d : list (string * value)) :
  json_keys (encode (VObj c d)) = d.*1.
Proof.
  simpl. induction d as [|[k v] d IH]; [done|]. simpl. f_equal. apply IH.
Qed.

Lemma dict_get_None (d : list (string * value)) (a : string) :
  dict_get d a = None → a ∉ d.*1.
Proof.
  induction d as [|[k v] d IH]; simpl; [by intros _ ?%elem_of_nil|].
  destruct (String.eqb k a) eqn:Hk; [done|]. apply String.eqb_neq in Hk.
  intros Hd [?|?]%elem_of_cons; [done|]. by apply IH.
Qed.

Lemma dict_get_Some (d : list (string * value)) (a : string) (v : value) :
  dict_get d a = Some v → a ∈ d.*1.
Proof.
  induction d as [|[k w] d IH]; simpl; [done|].
  destruct (String.eqb k a) eqn:Hk.
  - apply String.eqb_eq in Hk as ->. intros _. by left.
  - intros Hd. right. by apply IH.
Qed.

(** C1.  The claim fails for file compounds: [process_compound] appends the
    list returned by [parse_file] as one element of its result, so after
    the merge the global collection holds that list, a list of nodes, and
    not the nodes themselves. *)
Theorem parse_all_nests_file_nodes (env : environment) (g : globals)
    (id : string) (compound : compounddefType.t) :
  compounddefType.kind compound = "file" →
  ∃ first rest,
    parse_file compound = Ok (first :: rest) ∧
    nodes (parse_all env [CompoundType.mk id "file"]
             {[id +:+ ".xml" := [compound]]} g).1
    = nodes g ++ [VList (to_value first :: (to_value <$> rest))].
Proof.
  intros Hkind. destruct (parse_file_ok compound) as (first & rest & Hparse & _).
  exists first, rest. split; [done|].
  assert (process_compound {[id +:+ ".xml" := [compound]]} id
          = Ok ([], [VList (to_value <$> first :: rest)])) as Hresult.
  { unfold process_compound. rewrite lookup_singleton_eq.
    cbn [for_each]. unfold compound_step. rewrite Hkind. cbn.
    by rewrite Hparse. }
  unfold parse_all, concurrent_pool_iter. cbn -[process_compound].
  by rewrite Hresult.
Qed.

Lemma parse_all_nests_file_nodes_witness :
  ∃ first rest,
    parse_file empty_header = Ok (first :: rest) ∧
    nodes (parse_all calm [CompoundType.mk "a_8h" "file"]
             {["a_8h" +:+ ".xml" := [empty_header]]} at_start).1
    = nodes at_start ++ [VList (to_value first :: (to_value <$> rest))].
Proof.
  apply (parse_all_nests_file_nodes calm at_start "a_8h" empty_header).
  reflexivity.
Defined.

(** C2.  The claim fails for [File], [Group] and [Function] nodes: their
    [kind] is an attribute of the class, which [__dict__] does not hold, so
    the object rendered for them has no [kind] member, while a
    [Struct] node, whose constructor assigns [kind], is rendered with one.
    The node of the empty header is rendered with the members [id], [name],
    [file], [line] and [desc] only. *)
Theorem rendered_nodes_lack_kind :
  (∀ compound, ∃ first rest,
     parse_file compound = Ok (first :: rest) ∧
     getattr first "kind" = Ok (VStr "file") ∧
     "kind" ∉ json_keys (encode (to_value first))) ∧
  (∀ compound, ∃ first rest,
     parse_group compound = Ok (first :: rest) ∧
     getattr first "kind" = Ok (VStr "group") ∧
     "kind" ∉ json_keys (encode (to_value first))) ∧
  (∀ memberdef, ∃ func,
     parse_function memberdef = Ok func ∧
     getattr func "kind" = Ok (VStr "func") ∧
     "kind" ∉ json_keys (encode (to_value func))) ∧
  (∀ compound is_union,
     "kind" ∈ json_keys (encode (to_value (parse_struct compound is_union)))) ∧
  fmap (M := res) (fmap (M := list) to_value) (parse_file empty_header)
  = Ok [VObj ClsFile [("id", VStr "a_8h"); ("name", VStr "a.h");
                      ("file", VStr ""); ("line", VNone); ("desc", VStr "")]] ∧
  encode (VObj ClsFile [("id", VStr "a_8h"); ("name", VStr "a.h");
                        ("file", VStr ""); ("line", VNone); ("desc", VStr "")])
  = JObj [("id", JStr "a_8h"); ("name", JStr "a.h"); ("file", JStr "");
          ("line", JNull); ("desc", JStr "")].
Proof.
  split; [|split; [|split; [|split; [|split]]]].
  - intros compound.
    destruct (parse_file_ok compound) as (first & rest & Hparse & Hcls & Hkind).
    exists first, rest. split; [done|]. split.
    + unfold getattr. by rewrite Hkind, Hcls.
    + unfold to_value. rewrite json_keys_encode. by apply dict_get_None.
  - intros compound.
    destruct (parse_group_ok compound) as (first & rest & Hparse & Hcls & Hkind).
    exists first, rest. split; [done|]. split.
    + unfold getattr. by rewrite Hkind, Hcls.
    + unfold to_value. rewrite json_keys_encode. by apply dict_get_None.
  - intros memberdef. eexists. split; [apply parse_function_eq|].
    assert (∀ o : obj, dict_get (dict o) "kind" = None → cls o = ClsFunction →
              getattr o "kind" = Ok (VStr "func") ∧
              "kind" ∉ json_keys (encode (to_value o))) as Hobj.
    { intros o Hkind Hcls. split.
      - unfold getattr. by rewrite Hkind, Hcls.
      - unfold to_value. rewrite json_keys_encode. by apply dict_get_None. }
    apply Hobj.
    + by rewrite !dict_setattr_ne, parse_location_frame.
    + by rewrite !cls_setattr, cls_parse_location.
  - intros compound is_union. unfold to_value. rewrite json_keys_encode.
    apply dict_get_Some with (v := VStr (if is_union then "union" else "struct")).
    unfold parse_struct. by rewrite dict_setattr_ne, parse_location_frame.
  - reflexivity.
  - reflexivity.
Qed.

(** ** Worked examples *)

(** One compound of each parsed kind, a page and a namespace: the five ids
    are kept in index order and only the namespace is warned about. *)
Example collect_ids_example :
  collect_ids
    [CompoundType.mk "a" "file"; CompoundType.mk "b" "group";
     CompoundType.mk "c" "struct"; CompoundType.mk "d" "class";
     CompoundType.mk "e" "union"; CompoundType.mk "p" "page";
     CompoundType.mk "n" "namespace"] []
  = ([unknown_kind_warning "namespace"], ["a"; "b"; "c"; "d"; "e"]).
Proof. reflexivity. Qed.

(** A source file as primary location and a header as declaration. *)
Example parse_location_example :
  let loc := locationType.mk None None (Some (Some "lib/a.c")) (Some (Some 3%Z))
               (Some (Some "include/a.h")) (Some (Some 7%Z)) in
  let member := memberdefType.mk "function" "a_1f" "f" (Some loc) [] None in
  resolved (parse_location (Function.init "a_1f" "f") member)
    (VStr "include/a.h") (VInt 7).
Proof. split; reflexivity. Qed.

(** Nine items on a process pool of four workers whose chunks finish in
    reverse order, and on a thread pool whose tasks finish in a scrambled
    order. *)
Example concurrent_pool_iter_example :
  (concurrent_pool_iter (Environment (Some 4%Z) [2; 1; 0] (λ _, 0))
     (λ x, Ok (x * x)) [1; 2; 3; 4; 5; 6; 7; 8; 9] true 2 at_start).2
  = Ok (triples (λ x, x * x) [1; 2; 3; 4; 5; 6; 7; 8; 9], None) ∧
  (concurrent_pool_iter (Environment None [8; 3; 5; 0] (λ _, 0))
     (λ x, Ok (x * x)) [1; 2; 3; 4; 5; 6; 7; 8; 9] false 2 at_start).2
  = Ok (triples (λ x, x * x) [1; 2; 3; 4; 5; 6; 7; 8; 9], None).
Proof. split; reflexivity. Qed.

(** A function with two parameters, the second unnamed and untyped. *)
Example parse_function_example :
  let int := linkedTextType.mk [CategoryText "int"] in
  let foo := linkedTextType.mk
               [CategoryText "const struct ";
                CategoryComplex "ref" (refTextType.mk "structfoo" "foo");
                CategoryText " *"] in
  let member := memberdefType.mk "function" "a_1f" "f" None
                  [paramType.mk (Some "p") (Some foo); paramType.mk None None]
                  (Some int) in
  to_value <$> parse_function member
  = Ok (VObj ClsFunction
          [("id", VStr "a_1f"); ("name", VStr "f");
           ("params",
            VList [VObj ClsParam [("index", VInt 0); ("desc", VStr "");
                                  ("name", VStr "p");
                                  ("type", VStr "const struct foo *")];
                   VObj ClsParam [("index", VInt 1); ("desc", VStr "");
                                  ("name", VNone); ("type", VStr "void")]]);
           ("file", VStr ""); ("line", VNone); ("desc", VStr "");
           ("return_type", VStr "int")]).
Proof. reflexivity. Qed.

(** * Further properties *)

(** ** What the compound parser returns *)

Section containers.
Implicit Types (node base : obj) (ids acc : list string).

Lemma getattr_with_children base ids :
  childless base →
  ∃ v, getattr (with_children base ids) "children_ids" = Ok v ∧
       is_ids v = true ∧ ids_of v = list_to_set ids.
Proof.
  intros [_ Hnone]. destruct ids as [|id ids].
  - exists VNone. by split; [exact Hnone|].
  - eexists. split; [apply getattr_setattr_eq|done].
Qed.

Lemma add_child_with_children base acc child :
  childless base →
  Node.add_child (with_children base acc) child
  = Ok (with_children base (acc ++ [child])).
Proof.
  intros Hbase.
  destruct (getattr_with_children base acc Hbase) as (v & Hv & Hids & Hset).
  rewrite (add_child_eq _ _ _ Hv Hids), Hset. f_equal.
  assert ({[child]} ∪ list_to_set acc = list_to_set (C := gset string) (acc ++ [child]))
    as -> by (rewrite list_to_set_app_L; simpl;
              by rewrite (right_id_L ∅ (∪)), (comm_L (∪))).
  destruct acc as [|a acc]; simpl; [done|]. by rewrite setattr_setattr.
Qed.

Lemma add_children_with_children {X : Type} (proj : X → string) (xs : list X) :
  ∀ base acc, childless base →
    for_each xs (λ node x, Node.add_child node (proj x)) (with_children base acc)
    = Ok (with_children base (acc ++ (proj <$> xs))).
Proof.
  induction xs as [|x xs IH]; intros base acc Hbase; simpl.
  - by rewrite app_nil_r.
  - rewrite add_child_with_children by done. simpl.
    rewrite IH by done. by rewrite <- app_assoc.
Qed.

Lemma parse_memberdef_eq (memberdef : memberdefType.t) :
  parse_memberdef memberdef
  = Ok (if decide (is_function memberdef) then [function_node memberdef] else []).
Proof.
  unfold parse_memberdef, is_function, DoxMemberKind.FUNCTION.
  destruct (String.eqb _ _) eqn:Hkind.
  - apply String.eqb_eq in Hkind. rewrite decide_True by done.
    by rewrite parse_function_eq.
  - apply String.eqb_neq in Hkind. by rewrite decide_False.
Qed.

Lemma function_node_id (memberdef : memberdefType.t) :
  getattr (function_node memberdef) "id" = Ok (VStr (memberdefType.id memberdef)).
Proof.
  unfold function_node, getattr.
  by rewrite !dict_setattr_ne, parse_location_frame.
Qed.

Lemma childless_described `{Located T} node (compound : T) :
  childless node → childless (described node compound).
Proof.
  intros [Hdict Hattr]. unfold childless, described, getattr in *.
  by rewrite dict_setattr_ne, parse_location_frame, cls_setattr,
    cls_parse_location.
Qed.

Lemma memberdef_loop (memberdefs : list memberdefType.t) :
  ∀ base acc rest, childless base →
    for_each memberdefs
      (λ '(node, rest) memberdef,
         children ← parse_memberdef memberdef;
         node ← for_each children add_child_node node;
         mret (node, rest ++ children))
      (with_children base acc, rest)
    = Ok (with_children base
            (acc ++ (memberdefType.id <$> filter is_function memberdefs)),
          rest ++ (function_node <$> filter is_function memberdefs)).
Proof.
  induction memberdefs as [|m ms IH]; intros base acc rest Hbase.
  - simpl. by rewrite !app_nil_r.
  - cbn [for_each]. rewrite parse_memberdef_eq, filter_cons.
    destruct (decide (is_function m)) as [Hm|Hm];
      cbn -[function_node with_children Node.add_child].
    + unfold add_child_node. rewrite function_node_id.
      cbn -[function_node with_children Node.add_child].
      rewrite add_child_with_children by done.
      cbn -[function_node with_children].
      rewrite IH by done. by rewrite <- !app_assoc.
    + rewrite app_nil_r. by apply IH.
Qed.

Lemma sectiondef_loop (sectiondefs : list sectiondefType.t) :
  ∀ base acc rest, childless base →
    for_each sectiondefs
      (λ '(node, rest) sectiondef,
         node ← for_each (sectiondefType.member sectiondef)
           (λ node member, Node.add_child node (MemberType.refid member)) node;
         for_each (or_empty (sectiondefType.memberdef sectiondef))
           (λ '(node, rest) memberdef,
              children ← parse_memberdef memberdef;
              node ← for_each children add_child_node node;
              mret (node, rest ++ children))
           (node, rest))
      (with_children base acc, rest)
    = Ok (with_children base (acc ++ (sectiondefs ≫= section_child_ids)),
          rest ++ (function_node <$> (sectiondefs ≫= section_functions))).
Proof.
  induction sectiondefs as [|sd sds IH]; intros base acc rest Hbase.
  - simpl. by rewrite !app_nil_r.
  - cbn [for_each].
    rewrite (add_children_with_children MemberType.refid) by done. simpl.
    rewrite memberdef_loop by done. simpl.
    rewrite IH by done. unfold section_child_ids, section_functions.
    by rewrite fmap_app, <- !app_assoc.
Qed.

(** The nested loops of [parse_file_or_group], in closed form. *)
Lemma parse_file_or_group_eq node (compound : compounddefType.t) :
  childless node →
  parse_file_or_group node compound
  = Ok (with_children (described node compound) (child_ids compound)
        :: (function_node <$> function_members compound)).
Proof.
  intros Hnode. unfold parse_file_or_group.
  pose proof (childless_described node compound Hnode) as Hbase.
  change (setattr (parse_location node compound) "desc" (VStr parse_description))
    with (with_children (described node compound) []).
  rewrite (add_children_with_children refType.refid) by done. simpl.
  rewrite sectiondef_loop by done. done.
Qed.
End containers.

(** X1.  [parse_file] and [parse_group] cannot raise.  They return the
    container node followed by the nodes [parse_function] returns for the
    function members of the compound, section after section in document
    order, and nothing for members of any other kind.  The container's
    [children_ids] is [None] when the compound attaches nothing, and
    otherwise the set of the inner class, inner group, member reference and
    function member ids. *)
Theorem containers_return_node_then_functions (compound : compounddefType.t) :
  (∃ first rest,
     parse_file compound = Ok (first :: rest) ∧
     cls first = ClsFile ∧
     Forall2 (λ m node, parse_function m = Ok node) (function_members compound) rest ∧
     getattr first "children_ids" = Ok (children_value (child_ids compound))) ∧
  (∃ first rest,
     parse_group compound = Ok (first :: rest) ∧
     cls first = ClsGroup ∧
     Forall2 (λ m node, parse_function m = Ok node) (function_members compound) rest ∧
     getattr first "children_ids" = Ok (children_value (child_ids compound))).
Proof.
  assert (∀ ms, Forall2 (λ m node, parse_function m = Ok node) ms (function_node <$> ms))
    as Hrest.
  { intros ms. apply Forall2_fmap_r, Forall_Forall2_diag, Forall_forall.
    intros m _. apply parse_function_eq. }
  assert (∀ base ids, childless base →
            getattr (with_children base ids) "children_ids" = Ok (children_value ids))
    as Hchildren.
  { intros base [|id ids] [_ Hbase]; [done|]. apply getattr_setattr_eq. }
  split.
  - unfold parse_file. rewrite parse_file_or_group_eq by done.
    eexists _, _. split; [done|]. split.
    { destruct (child_ids compound); simpl; apply cls_parse_location. }
    split; [apply Hrest|]. by apply Hchildren, childless_described.
  - unfold parse_group. rewrite parse_file_or_group_eq by done.
    eexists _, _. split; [done|]. split.
    { destruct (child_ids compound); simpl; apply cls_parse_location. }
    split; [apply Hrest|]. by apply Hchildren, childless_described.
Qed.

(** ** Locations *)

Lemma dict_set_again (d : list (string * value)) (a b : string) (v w v' : value) :
  a ≠ b →
  dict_set (dict_set (dict_set d a v) b w) a v' = dict_set (dict_set d a v') b w.
Proof.
  intros Hab. pose proof Hab as Hab'%String.eqb_neq.
  induction d as [|[k u] d IH]; simpl.
  - by repeat (simpl; rewrite ?String.eqb_refl, ?Hab').
  - destruct (String.eqb k a) eqn:Hka.
    + apply String.eqb_eq in Hka as ->.
      by repeat (simpl; rewrite ?String.eqb_refl, ?Hab').
    + destruct (String.eqb k b) eqn:Hkb.
      * repeat (simpl; rewrite ?Hka, ?Hkb). by rewrite dict_set_set.
      * repeat (simpl; rewrite ?Hka, ?Hkb). by rewrite IH.
Qed.

(** [parse_location] is two assignments, of values read off the record. *)
Lemma parse_location_assigns `{Located T} (node : obj) (compound : T) :
  ∃ f l,
    (∀ node, parse_location node compound
             = setattr (setattr node "file" (VStr f)) "line" l) ∧
    ((f = "" ∧ l = VNone) ∨
     ((∃ stem, f = stem +:+ ".h") ∧ (l = VNone ∨ ∃ z, l = VInt z))).
Proof.
  unfold parse_location.
  assert (∀ l : attr Z, line_value l = VNone ∨ ∃ z, line_value l = VInt z) as Hline.
  { intros [[z|]|]; simpl; eauto. }
  destruct (get_location compound) as [loc|]; [|exists "", VNone; by split; [|left]].
  destruct (is_header (locationType.bodyfile loc)) eqn:Hb;
    [|destruct (is_header (locationType.file loc)) eqn:Hf;
      [|destruct (is_header (locationType.declfile loc)) eqn:Hd]].
  - apply is_header_spec in Hb as (s & Hs & Hstem). rewrite Hs. simpl.
    eexists s, _. split; [done|]. right. split; [done|]. apply Hline.
  - apply is_header_spec in Hf as (s & Hs & Hstem). rewrite Hs. simpl.
    eexists s, _. split; [done|]. right. split; [done|]. apply Hline.
  - apply is_header_spec in Hd as (s & Hs & Hstem). rewrite Hs. simpl.
    eexists s, _. split; [done|]. right. split; [done|]. apply Hline.
  - exists "", VNone. by split; [|left].
Qed.

Lemma getattr_parse_location `{Located T} (node : obj) (compound : T) a :
  a ≠ "file" → a ≠ "line" →
  getattr (parse_location node compound) a = getattr node a.
Proof.
  intros. unfold getattr. by rewrite parse_location_frame, cls_parse_location.
Qed.

(** X7.  Whatever the record, [parse_location] leaves in [file] a string
    that is empty or ends with [.h], and in [line] [None] or an integer
    (never the empty string the class declares); when the file is empty the
    line is [None]. *)
Theorem parse_location_points_into_headers `{Located T} (node : obj) (compound : T) :
  ∃ f l,
    getattr (parse_location node compound) "file" = Ok (VStr f) ∧
    getattr (parse_location node compound) "line" = Ok l ∧
    ((f = "" ∧ l = VNone) ∨
     ((∃ stem, f = stem +:+ ".h") ∧ (l = VNone ∨ ∃ z, l = VInt z))).
Proof.
  destruct (parse_location_assigns node compound) as (f & l & Heq & Hcases).
  exists f, l. rewrite Heq. split; [|split; [|done]].
  - rewrite getattr_setattr_ne by done. apply getattr_setattr_eq.
  - apply getattr_setattr_eq.
Qed.

(** X8.  [parse_location] assigns [file] and [line] and touches nothing else:
    the class of the node and every other attribute stay as they were.
    Resolving a node a second time replaces the first resolution entirely:
    the node is then what the second resolution alone would have made it. *)
Theorem parse_location_touches_only_location `{Located T}
    (node : obj) (first second : T) :
  cls (parse_location node second) = cls node ∧
  (∀ a, a ≠ "file" → a ≠ "line" →
        getattr (parse_location node second) a = getattr node a) ∧
  parse_location (parse_location node first) second = parse_location node second.
Proof.
  split; [apply cls_parse_location|]. split.
  - intros a ??. by apply getattr_parse_location.
  - destruct (parse_location_assigns node first) as (f1 & l1 & -> & _).
    destruct (parse_location_assigns node second) as (f2 & l2 & Heq & _).
    rewrite !Heq. destruct node as [c d]. unfold setattr. simpl. f_equal.
    by do 2 rewrite dict_set_again by done.
Qed.

(** ** Types *)

(** X9.  Flattening distributes over the fragment sequence: the text of two
    sequences put end to end is the two texts put end to end.  A type record
    that is present but has no fragment flattens to the empty string, not to
    [void]. *)
Theorem parse_type_concatenates (before after : list MixedContainer) :
  parse_type (Some (linkedTextType.mk (before ++ after)))
  = parse_type (Some (linkedTextType.mk before))
    +:+ parse_type (Some (linkedTextType.mk after)) ∧
  parse_type (Some (linkedTextType.mk [])) = "" ∧
  parse_type (Some (linkedTextType.mk [])) ≠ parse_type None.
Proof.
  split; [|done]. unfold parse_type. simpl.
  rewrite foldl_app, !parse_type_loop. simpl. by rewrite append_assoc.
Qed.

(** ** Nodes as the parser leaves them *)

Lemma unlinked_function_node (memberdef : memberdefType.t) :
  unlinked (function_node memberdef).
Proof.
  unfold unlinked, function_node. split.
  - rewrite !getattr_setattr_ne, getattr_parse_location by done. reflexivity.
  - rewrite !getattr_setattr_ne by done. apply getattr_setattr_eq.
Qed.

Lemma unlinked_with_children (node : obj) (compound : compounddefType.t)
    (ids : list string) :
  getattr node "parent_ids" = Ok VNone →
  unlinked (with_children (described node compound) ids).
Proof.
  intros Hnode. unfold unlinked, described. destruct ids as [|id ids]; simpl.
  - split; [|apply getattr_setattr_eq].
    by rewrite getattr_setattr_ne, getattr_parse_location.
  - rewrite !(getattr_setattr_ne _ "children_ids") by done.
    split; [|apply getattr_setattr_eq].
    by rewrite getattr_setattr_ne, getattr_parse_location.
Qed.

(** X2.  The parser never records a back-reference and never fills in a
    description: every node returned by [parse_file], [parse_group],
    [parse_struct] and [parse_function] has [parent_ids] equal to [None] and
    [desc] equal to the empty string. *)
Theorem parser_leaves_nodes_unlinked (compound : compounddefType.t)
    (memberdef : memberdefType.t) (is_union : bool) :
  (∃ nodes, parse_file compound = Ok nodes ∧ Forall unlinked nodes) ∧
  (∃ nodes, parse_group compound = Ok nodes ∧ Forall unlinked nodes) ∧
  unlinked (parse_struct compound is_union) ∧
  (∃ func, parse_function memberdef = Ok func ∧ unlinked func).
Proof.
  assert (∀ ms, Forall unlinked (function_node <$> ms)) as Hrest.
  { intros ms. apply Forall_fmap, Forall_forall. intros m _.
    apply unlinked_function_node. }
  split; [|split; [|split]].
  - unfold parse_file. rewrite parse_file_or_group_eq by done.
    eexists. split; [done|]. constructor; [|apply Hrest].
    by apply unlinked_with_children.
  - unfold parse_group. rewrite parse_file_or_group_eq by done.
    eexists. split; [done|]. constructor; [|apply Hrest].
    by apply unlinked_with_children.
  - unfold unlinked, parse_struct. split; [|apply getattr_setattr_eq].
    rewrite getattr_setattr_ne, getattr_parse_location by done. by destruct is_union.
  - eexists. split; [apply parse_function_eq|]. apply unlinked_function_node.
Qed.

(** X5.  A compound of kind struct, class or union adds one node to the
    result of [process_compound], the node itself, and writes no warning.
    The node's [kind] is [union] for a union and [struct] otherwise, so a
    class is recorded as a struct; [is_union] says which; and the node has
    no children, whatever members the compound has. *)
Theorem struct_compounds_are_leaves (err : list string) (result : list value)
    (compound : compounddefType.t) :
  compounddefType.kind compound ∈ ["struct"; "class"; "union"] →
  ∃ node,
    compound_step (err, result) compound = Ok (err, result ++ [to_value node]) ∧
    cls node = ClsStruct ∧
    getattr node "id" = Ok (VStr (compounddefType.id compound)) ∧
    getattr node "name" = Ok (VStr (compounddefType.compoundname compound)) ∧
    getattr node "kind"
    = Ok (VStr (if decide (compounddefType.kind compound = "union")
                then "union" else "struct")) ∧
    getattr node "is_union"
    = Ok (VBool (bool_decide (compounddefType.kind compound = "union"))) ∧
    getattr node "children_ids" = Ok VNone.
Proof.
  intros Hkind. exists (parse_struct compound
                          (String.eqb (compounddefType.kind compound) "union")).
  assert (String.eqb (compounddefType.kind compound) "union"
          = bool_decide (compounddefType.kind compound = "union")) as Hunion.
  { case_bool_decide as Hu; [by apply String.eqb_eq|by apply String.eqb_neq]. }
  split.
  { unfold compound_step, CompoundKind.FILE, CompoundKind.GROUP,
      CompoundKind.STRUCT, CompoundKind.CLASS, CompoundKind.UNION.
    set_unfold. destruct Hkind as [->|[->|[->|[]]]]; reflexivity. }
  rewrite Hunion. unfold parse_struct.
  split; [by rewrite cls_setattr, cls_parse_location|].
  repeat split; rewrite getattr_setattr_ne, getattr_parse_location by done;
    try reflexivity.
  case_bool_decide; [by rewrite decide_True|by rewrite decide_False].
Qed.

Lemma struct_compounds_are_leaves_witness :
  ∃ node,
    compound_step ([], [])
      (compounddefType.mk "class" "classfoo" "foo" None None None None None)
    = Ok ([], [] ++ [to_value node]) ∧
    cls node = ClsStruct ∧
    getattr node "id" = Ok (VStr "classfoo") ∧
    getattr node "name" = Ok (VStr "foo") ∧
    getattr node "kind"
    = Ok (VStr (if decide ("class" = "union") then "union" else "struct")) ∧
    getattr node "is_union" = Ok (VBool (bool_decide ("class" = "union"))) ∧
    getattr node "children_ids" = Ok VNone.
Proof.
  apply (struct_compounds_are_leaves [] []
           (compounddefType.mk "class" "classfoo" "foo" None None None None None)).
  simpl. set_unfold. tauto.
Defined.

(** ** The rendered document *)

Lemma json_member_encode (c : class) (d : list (string * value)) (key : string) :
  json_member (encode (VObj c d)) key = encode <$> dict_get d key.
Proof.
  simpl. induction d as [|[k v] d IH]; [done|]. simpl.
  destruct (String.eqb k key); [done|]. apply IH.
Qed.

Lemma encode_params (params : list paramType.t) :
  ∀ k, map encode (imap (λ i, param_record (k + i)) params)
       = imap (λ i, param_json (k + i)) params.
Proof.
  induction params as [|p ps IH]; intros k; [done|]. cbn [imap map]. f_equal.
  - unfold param_json, param_record. simpl. by destruct (paramType.declname p).
  - rewrite (imap_ext _ (λ i, param_record (S k + i)) ps)
      by (intros i x _; simpl; f_equal; lia).
    rewrite (imap_ext (_ ∘ S) (λ i, param_json (S k + i)) ps)
      by (intros i x _; simpl; f_equal; lia).
    apply IH.
Qed.

(** X3.  The node of a function is rendered as an object with the members
    [id], [name], [params], [file], [line], [desc] and [return_type], in
    that order and no other: [params] is an array with, for each declared
    parameter in order, an object of [index], [desc], [name] and [type],
    where a parameter without a declared name has [name] null. *)
Theorem function_rendering (memberdef : memberdefType.t) :
  ∃ func f l,
    parse_function memberdef = Ok func ∧
    resolved func (VStr f) l ∧
    encode (to_value func)
    = JObj [("id", JStr (memberdefType.id memberdef));
            ("name", JStr (memberdefType.name memberdef));
            ("params", JArr (imap param_json (memberdefType.param memberdef)));
            ("file", JStr f);
            ("line", encode l);
            ("desc", JStr "");
            ("return_type", JStr (parse_type (memberdefType.get_type memberdef)))].
Proof.
  destruct (parse_location_assigns
              (Function.init (memberdefType.id memberdef) (memberdefType.name memberdef))
              memberdef) as (f & l & Heq & _).
  eexists _, f, l. split; [apply parse_function_eq|].
  rewrite Heq. split.
  - split; rewrite !getattr_setattr_ne by done; apply getattr_setattr_eq.
  - cbn -[imap]. repeat f_equal. apply (encode_params _ 0).
Qed.

Lemma children_rendering (base : obj) (ids : list string) :
  childless base →
  (ids = [] →
   json_member (encode (to_value (with_children base ids))) "children_ids" = None) ∧
  (ids ≠ [] →
   ∃ l, json_member (encode (to_value (with_children base ids))) "children_ids"
        = Some (JArr (JStr <$> l)) ∧
        NoDup l ∧ ∀ id, id ∈ l ↔ id ∈ ids).
Proof.
  intros [Hdict _]. unfold to_value. rewrite json_member_encode. split.
  - intros ->. simpl. by rewrite Hdict.
  - intros Hids. destruct ids as [|id ids]; [done|].
    exists (elements (list_to_set (C := gset string) (id :: ids))).
    cbn [with_children]. rewrite dict_setattr_eq. split; [done|].
    split; [apply NoDup_elements|].
    intros x. by rewrite elem_of_elements, elem_of_list_to_set.
Qed.

(** X4.  In the object rendered for the node of a file or a group, the
    member [children_ids] is missing altogether when the compound attaches
    no id (it is neither null nor an empty array); otherwise it is an array
    of strings in which every attached id occurs exactly once, however many
    times the document attaches it. *)
Theorem children_rendered_once (compound : compounddefType.t) :
  (∃ first rest,
     parse_file compound = Ok (first :: rest) ∧
     (child_ids compound = [] →
      json_member (encode (to_value first)) "children_ids" = None) ∧
     (child_ids compound ≠ [] →
      ∃ l, json_member (encode (to_value first)) "children_ids"
           = Some (JArr (JStr <$> l)) ∧
           NoDup l ∧ ∀ id, id ∈ l ↔ id ∈ child_ids compound)) ∧
  (∃ first rest,
     parse_group compound = Ok (first :: rest) ∧
     (child_ids compound = [] →
      json_member (encode (to_value first)) "children_ids" = None) ∧
     (child_ids compound ≠ [] →
      ∃ l, json_member (encode (to_value first)) "children_ids"
           = Some (JArr (JStr <$> l)) ∧
           NoDup l ∧ ∀ id, id ∈ l ↔ id ∈ child_ids compound)).
Proof.
  split.
  - unfold parse_file. rewrite parse_file_or_group_eq by done.
    eexists _, _. split; [done|].
    by apply children_rendering, childless_described.
  - unfold parse_group. rewrite parse_file_or_group_eq by done.
    eexists _, _. split; [done|].
    by apply children_rendering, childless_described.
Qed.

(** X6.  The node of a group carries the title of its compound, and [None]
    when the compound has none: the empty string the class declares never
    shows.  It is rendered under [title], right after [name].  The node of
    a file has no title: reading it raises [AttributeError]. *)
Theorem group_title (compound : compounddefType.t) :
  (∃ first rest,
     parse_group compound = Ok (first :: rest) ∧
     getattr first "title" = Ok (opt_str (compounddefType.title compound)) ∧
     take 3 (json_keys (encode (to_value first))) = ["id"; "name"; "title"] ∧
     json_member (encode (to_value first)) "title"
     = Some (match compounddefType.title compound with
             | Some title => JStr title
             | None => JNull
             end)) ∧
  (∃ first rest,
     parse_file compound = Ok (first :: rest) ∧
     getattr first "title" = Raise AttributeError).
Proof.
  split.
  - unfold parse_group. rewrite parse_file_or_group_eq by done.
    eexists _, _. split; [done|].
    destruct (parse_location_assigns
                (setattr (Group (compounddefType.id compound)
                                (compounddefType.compoundname compound))
                   "title" (opt_str (compounddefType.title compound)))
                compound) as (f & l & Heq & _).
    unfold described. rewrite Heq.
    destruct (child_ids compound), (compounddefType.title compound); done.
  - unfold parse_file. rewrite parse_file_or_group_eq by done.
    eexists _, _. split; [done|].
    destruct (parse_location_assigns
                (File (compounddefType.id compound)
                      (compounddefType.compoundname compound))
                compound) as (f & l & Heq & _).
    unfold described. rewrite Heq. by destruct (child_ids compound).
Qed.

(** ** Short ids and parameters *)

Lemma constructed_kind_name (node : obj) :
  constructed node →
  ∃ kind name,
    kind ∈ ["file"; "group"; "struct"; "union"; "func"; ""] ∧
    getattr node "kind" = Ok (VStr kind) ∧
    getattr node "name" = Ok (VStr name) ∧
    Node.get_short_id node = Ok (Text (kind +:+ ":" +:+ name)).
Proof.
  destruct 1 as [id name|id name|id name []|id name|id name];
    eexists _, name; (split; [|by repeat split]); set_unfold; tauto.
Qed.

(** X10.  The short id of a node fresh from its constructor is its kind, a
    colon and its name; the id plays no part in it.  Two such nodes have the
    same short id exactly when they have the same kind and the same name,
    also when a name has a colon in it. *)
Theorem short_id_is_kind_and_name (n1 n2 : obj) :
  constructed n1 → constructed n2 →
  (∃ kind name,
     getattr n1 "kind" = Ok (VStr kind) ∧
     getattr n1 "name" = Ok (VStr name) ∧
     Node.get_short_id n1 = Ok (Text (kind +:+ ":" +:+ name))) ∧
  (Node.get_short_id n1 = Node.get_short_id n2 ↔
   getattr n1 "kind" = getattr n2 "kind" ∧ getattr n1 "name" = getattr n2 "name").
Proof.
  intros (k1 & m1 & Hk1 & Hkind1 & Hname1 & Hid1)%constructed_kind_name
         (k2 & m2 & Hk2 & Hkind2 & Hname2 & Hid2)%constructed_kind_name.
  split; [by exists k1, m1|].
  rewrite Hkind1, Hkind2, Hname1, Hname2, Hid1, Hid2. split.
  - intros Heq. set_unfold.
    destruct Hk1 as [->|[->|[->|[->|[->|[->|[]]]]]]];
      destruct Hk2 as [->|[->|[->|[->|[->|[->|[]]]]]]];
      vm_compute in Heq; by simplify_eq.
  - by intros [[= ->] [= ->]].
Qed.

Lemma short_id_is_kind_and_name_witness :
  (∃ kind name,
     getattr (File "a_8h" "a.h") "kind" = Ok (VStr kind) ∧
     getattr (File "a_8h" "a.h") "name" = Ok (VStr name) ∧
     Node.get_short_id (File "a_8h" "a.h") = Ok (Text (kind +:+ ":" +:+ name))) ∧
  (Node.get_short_id (File "a_8h" "a.h")
   = Node.get_short_id (Struct "structa" "a.h" false) ↔
   getattr (File "a_8h" "a.h") "kind" = getattr (Struct "structa" "a.h" false) "kind" ∧
   getattr (File "a_8h" "a.h") "name" = getattr (Struct "structa" "a.h" false) "name").
Proof.
  apply (short_id_is_kind_and_name (File "a_8h" "a.h") (Struct "structa" "a.h" false));
    constructor.
Defined.

(** X11.  [add_param] appends one [Param] to [params] and returns it; the
    parameters already there and every other attribute of the function are
    left alone.  The new [Param] has its position as [index] and nothing
    else: until they are assigned, reading its [type], [name] or [desc]
    raises [AttributeError]. *)
Theorem add_param_appends_bare_param (func : obj) (params : list value) :
  getattr func "params" = Ok (VList params) →
  ∃ func' param,
    Function.add_param func = Ok (func', length params) ∧
    getattr func' "params" = Ok (VList (params ++ [to_value param])) ∧
    (∀ a, a ≠ "params" → getattr func' a = getattr func a) ∧
    cls param = ClsParam ∧
    getattr param "index" = Ok (VInt (Z.of_nat (length params))) ∧
    getattr param "type" = Raise AttributeError ∧
    getattr param "name" = Raise AttributeError ∧
    getattr param "desc" = Raise AttributeError.
Proof.
  intros Hparams. unfold Function.add_param. rewrite Hparams. simpl.
  eexists _, (Obj ClsParam _). split; [done|].
  split; [apply getattr_setattr_eq|].
  split; [intros a Ha; by apply getattr_setattr_ne|]. done.
Qed.

Lemma add_param_appends_bare_param_witness :
  ∃ func' param,
    Function.add_param (Function.init "a_1f" "f") = Ok (func', length (@nil value)) ∧
    getattr func' "params" = Ok (VList (@nil value ++ [to_value param])) ∧
    (∀ a, a ≠ "params" → getattr func' a = getattr (Function.init "a_1f" "f") a) ∧
    cls param = ClsParam ∧
    getattr param "index" = Ok (VInt (Z.of_nat (length (@nil value)))) ∧
    getattr param "type" = Raise AttributeError ∧
    getattr param "name" = Raise AttributeError ∧
    getattr param "desc" = Raise AttributeError.
Proof.
  apply (add_param_appends_bare_param (Function.init "a_1f" "f") []).
  reflexivity.
Defined.

(** ** The dispatcher, result by result *)

Lemma result_iterator_builtin_map {A B : Type} (func : A → res B) (xs : list A) :
  result_iterator (func <$> xs) = builtin_map func xs.
Proof.
  induction xs as [|x xs IH]; [done|].
  rewrite fmap_cons. cbn [result_iterator builtin_map].
  destruct (func x); [|done]. by rewrite IH.
Qed.

(** What the caller gets, with the pool taken out of the picture: the order
    in which the workers finish has no part in it. *)
Lemma concurrent_pool_iter_result {A B : Type} (env : environment)
    (func : A → res B) (xs : list A) (use_process : bool) (threshold : Z)
    (g : globals) :
  (concurrent_pool_iter env func xs use_process threshold g).2
  = (it ← (if (threshold <=? Z.of_nat (length xs))%Z && use_process then
             if (chunk_size env (length xs) <? 1)%Z then Raise ValueError
             else Ok (chain (result_iterator
                               (mapM func <$> get_chunks
                                  (Z.to_nat (chunk_size env (length xs))) xs)))
           else Ok (builtin_map func xs));
     mret (zip3 it xs (range (length xs)))).
Proof.
  unfold concurrent_pool_iter, chunk_size. fold (workers env).
  destruct (threshold <=? Z.of_nat (length xs))%Z; [|done].
  destruct use_process; simpl.
  - destruct (process_executor _); cbn -[executor_map]; unfold executor_map;
      by rewrite pool_outcomes_in_order.
  - destruct (thread_executor _); cbn -[executor_map]; unfold executor_map;
      by rewrite pool_outcomes_in_order, result_iterator_builtin_map.
Qed.

Lemma builtin_map_ext {A B : Type} (func func' : A → res B) (xs : list A) :
  (∀ x, x ∈ xs → func x = func' x) → builtin_map func xs = builtin_map func' xs.
Proof.
  induction xs as [|x xs IH]; intros Hext; [done|]. cbn [builtin_map].
  rewrite (Hext x), IH; [done| |]; set_solver.
Qed.

Lemma mapM_res_ext {A B : Type} (func func' : A → res B) (xs : list A) :
  (∀ x, x ∈ xs → func x = func' x) → mapM func xs = mapM func' xs.
Proof.
  induction xs as [|x xs IH]; intros Hext; [done|]. cbn [mapM].
  rewrite (Hext x), IH; [done| |]; set_solver.
Qed.

Lemma get_chunks_elem_of {A : Type} (chunksize : nat) (xs chunk : list A) (x : A) :
  0 < chunksize → chunk ∈ get_chunks chunksize xs → x ∈ chunk → x ∈ xs.
Proof.
  intros Hsize Hchunk Hx.
  rewrite <- (get_chunks_concat chunksize xs Hsize).
  apply list_elem_of_In, in_concat. exists chunk.
  split; by apply list_elem_of_In.
Qed.

(** The dispatcher looks at [func] on the items of the collection only. *)
Lemma concurrent_pool_iter_result_ext {A B : Type} (env : environment)
    (func func' : A → res B) (xs : list A) (use_process : bool) (threshold : Z)
    (g : globals) :
  (∀ x, x ∈ xs → func x = func' x) →
  (concurrent_pool_iter env func xs use_process threshold g).2
  = (concurrent_pool_iter env func' xs use_process threshold g).2.
Proof.
  intros Hext. rewrite !concurrent_pool_iter_result.
  rewrite (builtin_map_ext func func' xs Hext).
  destruct (_ && _); [|done].
  destruct (chunk_size env (length xs) <? 1)%Z eqn:Hsize; [done|].
  apply Z.ltb_ge in Hsize. do 4 f_equal.
  apply list_fmap_ext. intros i chunk Hchunk. apply mapM_res_ext.
  intros x Hx. apply Hext.
  eapply get_chunks_elem_of; [|by eapply list_elem_of_lookup_2|done]. lia.
Qed.

(** X12.  Run sequentially (below the threshold) or on the thread pool, a
    function that returns on every item of the collection (whatever it does
    elsewhere) gets its results back as the triples [(f(item), item, index)]
    in input order, with any number of workers and whatever the order in
    which the workers finish. *)
Theorem dispatcher_keeps_input_order {A B : Type} (env : environment)
    (func : A → res B) (f : A → B) (xs : list A) (use_process : bool)
    (threshold : Z) (g : globals) :
  (∀ x, x ∈ xs → func x = Ok (f x)) →
  (Z.of_nat (length xs) < threshold)%Z ∨ use_process = false →
  (concurrent_pool_iter env func xs use_process threshold g).2
  = Ok (triples f xs, None).
Proof.
  intros Hfunc Hmode. rewrite concurrent_pool_iter_result.
  assert ((threshold <=? Z.of_nat (length xs))%Z && use_process = false) as ->.
  { destruct Hmode as [Hlen%Z.leb_gt| ->]; [by rewrite Hlen|apply andb_false_r]. }
  rewrite (builtin_map_ext func (λ x, Ok (f x)) xs Hfunc). simpl.
  by rewrite builtin_map_returns, zip3_triples.
Qed.

Lemma dispatcher_keeps_input_order_witness :
  (concurrent_pool_iter (Environment (Some 2%Z) [2; 0; 1] (λ _, 0))
     (λ x, if x <? 4 then Ok (x * x) else Raise TypeError)
     [1; 2; 3] false 2 at_start).2
  = Ok (triples (λ x, x * x) [1; 2; 3], None).
Proof.
  apply (dispatcher_keeps_input_order (Environment (Some 2%Z) [2; 0; 1] (λ _, 0))
           (λ x, if x <? 4 then Ok (x * x) else Raise TypeError)
           (λ x, x * x) [1; 2; 3] false 2 at_start).
  - intros x Hx. apply list_elem_of_In in Hx. simpl in Hx.
    destruct Hx as [<-|[<-|[<-|[]]]]; reflexivity.
  - right. reflexivity.
Defined.

(** The module variables after a call. *)
Lemma concurrent_pool_iter_state {A B : Type} (env : environment)
    (func : A → res B) (xs : list A) (use_process : bool) (threshold : Z)
    (g : globals) :
  let g' := (concurrent_pool_iter env func xs use_process threshold g).1 in
  nodes g' = nodes g ∧ stderr g' = stderr g ∧
  ((Z.of_nat (length xs) < threshold)%Z → g' = g) ∧
  ((threshold ≤ Z.of_nat (length xs))%Z →
     executor_workers g' = Some (workers env) ∧ (1 ≤ workers env)%Z ∧
     (use_process = true →
        thread_executor g' = thread_executor g ∧
        process_executor g'
        = Some (default (ProcessPool (workers env)) (process_executor g))) ∧
     (use_process = false →
        process_executor g' = process_executor g ∧
        thread_executor g'
        = Some (default (ThreadPool (workers env)) (thread_executor g)))).
Proof.
  unfold concurrent_pool_iter. fold (workers env).
  destruct (threshold <=? Z.of_nat (length xs))%Z eqn:Hlen.
  - apply Z.leb_le in Hlen.
    destruct use_process;
      [destruct (process_executor g) eqn:Hpool
      |destruct (thread_executor g) eqn:Hpool];
      cbn -[executor_map]; rewrite ?Hpool;
      (split; [done|]); (split; [done|]); (split; [lia|]); intros _;
      (split; [done|]); (split; [apply workers_positive|]); by split.
  - apply Z.leb_gt in Hlen. simpl. do 3 (split; [done|]). lia.
Qed.

(** X13.  A call never touches [nodes] or the error stream.  Below the
    threshold it leaves every module variable as it was.  At or above it, it
    records a worker count of at least one and makes sure the pool of the
    requested kind exists: a pool that exists is kept as it is, a missing
    one is created with the worker count, and the pool of the other kind is
    not touched. *)
Theorem pools_are_created_once_and_kept {A B : Type} (env : environment)
    (func : A → res B) (xs : list A) (use_process : bool) (threshold : Z)
    (g : globals) :
  let g' := (concurrent_pool_iter env func xs use_process threshold g).1 in
  nodes g' = nodes g ∧ stderr g' = stderr g ∧
  ((Z.of_nat (length xs) < threshold)%Z → g' = g) ∧
  ((threshold ≤ Z.of_nat (length xs))%Z →
     executor_workers g' = Some (workers env) ∧ (1 ≤ workers env)%Z ∧
     (use_process = true →
        thread_executor g' = thread_executor g ∧
        process_executor g'
        = Some (default (ProcessPool (workers env)) (process_executor g))) ∧
     (use_process = false →
        process_executor g' = process_executor g ∧
        thread_executor g'
        = Some (default (ThreadPool (workers env)) (thread_executor g)))).
Proof.
  unfold concurrent_pool_iter. fold (workers env).
  destruct (threshold <=? Z.of_nat (length xs))%Z eqn:Hlen.
  - apply Z.leb_le in Hlen.
    destruct use_process;
      [destruct (process_executor g) eqn:Hpool
      |destruct (thread_executor g) eqn:Hpool];
      cbn -[executor_map]; rewrite ?Hpool;
      (split; [done|]); (split; [done|]); (split; [lia|]); intros _;
      (split; [done|]); (split; [apply workers_positive|]); by split.
  - apply Z.leb_gt in Hlen. simpl. do 3 (split; [done|]). lia.
Qed.

(** ** When the function raises *)

Section raising.
Context {A B : Type} (func : A → res B) (f : A → B).
Implicit Types (before after xs : list A) (x : A) (e : exn).

Lemma builtin_map_raise before x after e :
  (∀ y, y ∈ before → func y = Ok (f y)) → func x = Raise e →
  builtin_map func (before ++ x :: after) = (f <$> before, Some e).
Proof.
  intros Hbefore Hx. induction before as [|y before IH]; simpl.
  - by rewrite Hx.
  - rewrite (Hbefore y), IH; [done| |]; set_solver.
Qed.

Lemma mapM_raise before x after e :
  (∀ y, y ∈ before → func y = Ok (f y)) → func x = Raise e →
  mapM func (before ++ x :: after) = Raise e.
Proof.
  intros Hbefore Hx. induction before as [|y before IH]; simpl.
  - by rewrite Hx.
  - rewrite (Hbefore y), IH; [done| |]; set_solver.
Qed.

Lemma mapM_return xs :
  (∀ y, y ∈ xs → func y = Ok (f y)) → mapM func xs = Ok (f <$> xs).
Proof.
  intros Hxs. rewrite (mapM_res_ext func (λ y, Ok (f y))) by done.
  apply mapM_returns.
Qed.

Lemma zip_triples_prefix before after :
  zip (zip (f <$> before) (before ++ after))
      (range (length (before ++ after)))
  = triples f before.
Proof.
  unfold range, triples. rewrite length_app.
  assert (∀ k n, zip (zip (f <$> before) (before ++ after))
                     (Z.of_nat <$> seq k (length before + n))
                 = imap (λ i y, (f y, y, Z.of_nat (k + i))) before) as Hk.
  { induction before as [|y before IH]; intros k n; simpl; [done|].
    rewrite Nat.add_0_r, IH. f_equal. apply imap_ext. intros i z _. simpl.
    do 2 f_equal. lia. }
  by rewrite Hk.
Qed.

Lemma get_chunks_fuel_cons (fuel chunksize : nat) xs :
  0 < chunksize → xs ≠ [] →
  get_chunks_fuel (S fuel) chunksize xs
  = take chunksize xs :: get_chunks_fuel fuel chunksize (drop chunksize xs).
Proof.
  intros Hsize Hxs. cbn [get_chunks_fuel].
  destruct xs as [|y xs]; [done|]. by destruct chunksize; [lia|].
Qed.

(** The chunks of a collection whose first failing item is [x]: the chunks
    before the one that holds [x] are delivered, that one raises. *)
Lemma chunks_until_raise (chunksize : nat) x after e :
  0 < chunksize → func x = Raise e →
  ∀ fuel before,
    length (before ++ x :: after) < fuel →
    (∀ y, y ∈ before → func y = Ok (f y)) →
    chain (result_iterator
             (mapM func <$> get_chunks_fuel fuel chunksize (before ++ x :: after)))
    = (f <$> take (chunksize * (length before `div` chunksize)) before, Some e).
Proof.
  intros Hsize Hx. induction fuel as [|fuel IH]; intros before Hfuel Hbefore;
    [lia|].
  rewrite get_chunks_fuel_cons by (done || by destruct before).
  rewrite fmap_cons.
  destruct (decide (length before < chunksize)) as [Hshort|Hlong].
  - rewrite take_app_ge by lia.
    destruct (chunksize - length before) as [|rest] eqn:Hrest; [lia|].
    cbn [take]. rewrite (mapM_raise before x _ e) by done.
    rewrite Nat.div_small, Nat.mul_0_r by done. by rewrite take_0.
  - rewrite take_app_le, drop_app_le by lia.
    rewrite (mapM_return (take chunksize before))
      by (intros z Hz; apply Hbefore; by eapply subseteq_take).
    cbn [result_iterator].
    specialize (IH (drop chunksize before)).
    destruct (result_iterator _) as [rs e'] eqn:Hrest.
    unfold chain in *. simpl in *.
    assert ((concat rs, e')
            = (f <$> take (chunksize * (length (drop chunksize before) `div` chunksize))
                       (drop chunksize before), Some e)) as [= -> ->].
    { apply IH.
      - rewrite length_app, length_drop in *. simpl in *. lia.
      - intros z Hz. apply Hbefore. by eapply subseteq_drop. }
    f_equal. rewrite <- fmap_app, take_take_drop. do 2 f_equal.
    rewrite length_drop.
    replace (length before) with ((length before - chunksize) + 1 * chunksize)
      at 2 by lia.
    rewrite Nat.div_add by lia. lia.
Qed.

(** What the dispatcher hands over when [func] raises for the first time on
    [x]: run in turn, everything before [x]; on the process pool, the whole
    chunks before the chunk of [x]. *)
Lemma concurrent_pool_iter_until_raise (env : environment) before x after e
    (threshold : Z) (g : globals) :
  (∀ y, y ∈ before → func y = Ok (f y)) → func x = Raise e →
  let n := length (before ++ x :: after) in
  let chunksize := Z.to_nat (chunk_size env n) in
  (concurrent_pool_iter env func (before ++ x :: after) true threshold g).2
  = Ok (triples f
          (if decide (Z.of_nat n < threshold)%Z then before
           else take (chunksize * (length before `div` chunksize)) before),
        Some e).
Proof.
  intros Hbefore Hx n chunksize. subst n. rewrite concurrent_pool_iter_result.
  destruct (decide _) as [Hlen|Hlen].
  - apply Z.leb_gt in Hlen. rewrite Hlen. simpl.
    rewrite (builtin_map_raise before x after e) by done.
    unfold zip3. simpl. by rewrite zip_triples_prefix.
  - apply Z.nlt_ge, Z.leb_le in Hlen. rewrite Hlen.
    assert (1 ≤ chunk_size env (length (before ++ x :: after)))%Z as Hsize.
    { unfold chunk_size. pose proof (workers_positive env) as Hw.
      fold (workers env) in Hw. apply Z.div_le_lower_bound; [lia|].
      rewrite length_app. simpl. lia. }
    simpl. pose proof Hsize as Hsize'%Z.ltb_ge. rewrite Hsize'.
    unfold get_chunks. fold chunksize.
    rewrite (chunks_until_raise chunksize x after e)
      by (done || unfold chunksize; lia).
    clearbody chunksize. set (k := chunksize * (length before `div` chunksize)).
    assert (before ++ x :: after = take k before ++ (drop k before ++ x :: after))
      as -> by (by rewrite app_assoc, take_drop).
    cbn [mbind res_bind mret res_ret]. unfold zip3. cbn [fst snd].
    by rewrite zip_triples_prefix.
Qed.

End raising.

(** X14.  Run sequentially (below the threshold) or on the thread pool, a
    function that raises for the first time on the item [x] lets the caller
    have the triples of all the items before [x], in input order, and then
    the exception of [x]; nothing of the items after [x] is delivered. *)
Theorem failure_keeps_earlier_results {A B : Type} (env : environment)
    (func : A → res B) (f : A → B) (before : list A) (x : A) (after : list A)
    (e : exn) (use_process : bool) (threshold : Z) (g : globals) :
  (∀ y, y ∈ before → func y = Ok (f y)) → func x = Raise e →
  (Z.of_nat (length (before ++ x :: after)) < threshold)%Z ∨ use_process = false →
  (concurrent_pool_iter env func (before ++ x :: after) use_process threshold g).2
  = Ok (triples f before, Some e).
Proof.
  intros Hbefore Hx Hmode. rewrite concurrent_pool_iter_result.
  assert ((threshold <=? Z.of_nat (length (before ++ x :: after)))%Z && use_process
          = false) as ->.
  { destruct Hmode as [Hlen%Z.leb_gt| ->]; [by rewrite Hlen|apply andb_false_r]. }
  rewrite (builtin_map_raise func f before x after e) by done.
  unfold zip3. simpl. by rewrite zip_triples_prefix.
Qed.

Lemma failure_keeps_earlier_results_witness :
  (concurrent_pool_iter (Environment None [3; 1] (λ _, 0))
     (λ x, if x <? 3 then Ok (x * x) else Raise TypeError)
     ([1; 2] ++ 3 :: [4]) false 2 at_start).2
  = Ok (triples (λ x, x * x) [1; 2], Some TypeError).
Proof.
  apply (failure_keeps_earlier_results (Environment None [3; 1] (λ _, 0))
           (λ x, if x <? 3 then Ok (x * x) else Raise TypeError)
           (λ x, x * x) [1; 2] 3 [4] TypeError false 2 at_start).
  - intros y Hy. apply list_elem_of_In in Hy. simpl in Hy.
    destruct Hy as [<-|[<-|[]]]; reflexivity.
  - reflexivity.
  - right. reflexivity.
Defined.

(** ** The index driver, end to end *)

Lemma insert_swap_Permutation {A : Type} (l : list A) (j : nat) (a b : A) :
  l !! j = Some b → b :: <[j := a]> l ≡ₚ a :: l.
Proof.
  revert j. induction l as [|h l IH]; intros [|j] Hj; simplify_eq/=.
  - apply perm_swap.
  - rewrite (perm_swap h b), IH by done. apply perm_swap.
Qed.

Lemma swap_Permutation {A : Type} (x : list A) (i j : nat) : swap x i j ≡ₚ x.
Proof.
  unfold swap. revert i j. induction x as [|h x IH]; intros i j; [by destruct i|].
  destruct i as [|i], j as [|j]; simpl.
  - done.
  - destruct (x !! j) as [b|] eqn:Hj; [|done]. simpl.
    by apply insert_swap_Permutation.
  - destruct (x !! i) as [a|] eqn:Hi; [|done]. simpl.
    by apply insert_swap_Permutation.
  - specialize (IH i j).
    destruct (x !! i) as [a|]; [|done]. destruct (x !! j) as [b|]; [|done].
    simpl. by rewrite IH.
Qed.

(** Whatever the draws, [shuffle] returns the items it was given, each as
    many times as it was there. *)
Lemma shuffle_Permutation {A : Type} (randbelow : nat → nat) (x : list A) :
  shuffle randbelow x ≡ₚ x.
Proof.
  unfold shuffle. generalize (reverse (seq 1 (length x - 1))). intros positions.
  revert x. induction positions as [|i positions IH]; intros x; simpl; [done|].
  by rewrite IH, swap_Permutation.
Qed.

Lemma foldl_merge (triples : list ((list string * list value) * string * Z))
    (g : globals) :
  foldl merge g triples
  = set_nodes (set_stderr g (stderr g ++ (triples ≫= λ t, t.1.1.1)))
      (nodes g ++ (triples ≫= λ t, t.1.1.2)).
Proof.
  revert g. induction triples as [|[[[err result] id] i] ts IH]; intros g.
  - simpl. rewrite !app_nil_r. by destruct g.
  - cbn [foldl]. rewrite IH. unfold merge, set_nodes, set_stderr. simpl.
    by rewrite <- !app_assoc.
Qed.

Lemma bind_triples {A B C : Type} (f : A → B) (h : B → list C) (xs : list A) :
  (triples f xs ≫= λ t, h t.1.1) = (xs ≫= λ x, h (f x)).
Proof.
  unfold triples.
  assert (∀ k, (imap (λ i x, (f x, x, Z.of_nat (k + i))) xs ≫= λ t, h t.1.1)
               = (xs ≫= λ x, h (f x))) as Hk.
  { induction xs as [|x xs IH]; intros k; [done|]. cbn [imap mbind list_bind].
    f_equal. rewrite <- (IH (S k)). f_equal. apply imap_ext. intros i y _. simpl.
    do 2 f_equal. lia. }
  apply (Hk 0).
Qed.

(** [parse_all], with its first loop and the shuffle named. *)
Lemma parse_all_eq (env : environment) (index : list CompoundType.t)
    (docs : documents) (g : globals) :
  parse_all env index docs g
  = let run :=
      concurrent_pool_iter env (process_compound docs)
        (shuffle (randbelow env)
           (CompoundType.refid <$> filter listed_kind_known index))
        true 20
        (set_stderr g
           (stderr g ++ ((unknown_kind_warning ∘ CompoundType.kind)
                           <$> filter listed_kind_unknown index))) in
    match run.2 with
    | Raise e => (run.1, Raise e)
    | Ok (triples, e) =>
        (foldl merge run.1 triples,
         match e with Some e => Raise e | None => Ok () end)
    end.
Proof.
  unfold parse_all, collect_ids. rewrite collect_ids_loop. simpl.
  by destruct (concurrent_pool_iter _ _ _ _ _ _) as [g' [[ts e]|e]].
Qed.

Lemma foldl_merge_pools (triples : list ((list string * list value) * string * Z))
    (g : globals) :
  process_executor (foldl merge g triples) = process_executor g ∧
  thread_executor (foldl merge g triples) = thread_executor g ∧
  executor_workers (foldl merge g triples) = executor_workers g.
Proof. by rewrite foldl_merge. Qed.

(** X16.  When every kept compound has its document, [parse_all] returns
    normally, and the node collection ends up as what it held before
    followed by the results of [process_compound] for the kept ids in the
    shuffled order: whatever the draws, the number of workers and the order
    in which they finish, every kept compound is processed exactly once, so
    the collection is, up to the order of the compounds, what was there
    followed by the results in index order. *)
Theorem parse_all_processes_each_kept_compound_once (env : environment)
    (index : list CompoundType.t) (docs : documents) (g : globals) :
  (∀ c, c ∈ index → listed_kind_known c →
        is_Some (docs !! (CompoundType.refid c +:+ ".xml"))) →
  let ids := CompoundType.refid <$> filter listed_kind_known index in
  let result := λ id, returned ([], []) (process_compound docs id) in
  ∃ g',
    parse_all env index docs g = (g', Ok ()) ∧
    nodes g' = nodes g ++ (shuffle (randbelow env) ids ≫= λ id, (result id).2) ∧
    nodes g' ≡ₚ nodes g ++ (ids ≫= λ id, (result id).2).
Proof.
  intros Hdocs ids result. rewrite parse_all_eq. fold ids.
  assert (∀ id, id ∈ shuffle (randbelow env) ids →
                process_compound docs id = Ok (result id)) as Hresult.
  { intros id Hid. rewrite shuffle_Permutation in Hid.
    apply list_elem_of_fmap in Hid as (c & -> & [Hknown Hc]%list_elem_of_filter).
    destruct (Hdocs c Hc Hknown) as [cds Hcds].
    unfold result, process_compound. rewrite Hcds.
    by destruct (process_compound_loop cds [] []) as (entries & -> & _). }
  cbv zeta.
  rewrite (concurrent_pool_iter_result_ext env _ (λ id, Ok (result id))) by done.
  rewrite concurrent_pool_iter_in_order by (right; right; lia).
  match goal with |- context [foldl merge ?g1 _] => set (g1' := g1) end.
  assert (nodes g1' = nodes g) as Hnodes.
  { unfold g1'.
    match goal with |- context [concurrent_pool_iter ?e ?fn ?xs ?up ?th ?g0] =>
      pose proof (concurrent_pool_iter_state e fn xs up th g0) as Hstate end.
    cbv zeta in Hstate. destruct Hstate as (-> & _). done. }
  eexists. split; [done|].
  rewrite foldl_merge, !(bind_triples result). simpl.
  rewrite Hnodes. split; [done|].
  by rewrite shuffle_Permutation.
Qed.

Lemma parse_all_processes_each_kept_compound_once_witness :
  let ids := CompoundType.refid <$> filter listed_kind_known library_index in
  let result := λ id, returned ([], []) (process_compound library_documents id) in
  ∃ g',
    parse_all busy library_index library_documents at_start = (g', Ok ()) ∧
    nodes g' = nodes at_start ++ (shuffle (randbelow busy) ids ≫= λ id, (result id).2) ∧
    nodes g' ≡ₚ nodes at_start ++ (ids ≫= λ id, (result id).2).
Proof.
  apply (parse_all_processes_each_kept_compound_once busy library_index
           library_documents at_start).
  intros c Hc Hknown. apply list_elem_of_In in Hc.
  unfold library_index in Hc. simpl in Hc.
  repeat (destruct Hc as [<-|Hc];
          [first [ by (vm_compute; eexists)
                 | exfalso; apply list_elem_of_In in Hknown; simpl in Hknown;
                   intuition discriminate ] |]).
  destruct Hc.
Defined.

(** The run of the example does use the process pool, its ids are moved by
    the shuffle, and its namespace is one the index loop warns about. *)
Example library_run :
  process_executor (parse_all busy library_index library_documents at_start).1
  = Some (ProcessPool 4) ∧
  length (nodes (parse_all busy library_index library_documents at_start).1) = 22 ∧
  shuffle (randbelow busy) (CompoundType.refid <$> filter listed_kind_known library_index)
  ≠ CompoundType.refid <$> filter listed_kind_known library_index ∧
  filter listed_kind_unknown library_index = [CompoundType.mk "namespacens" "namespace"].
Proof. vm_compute. repeat split. discriminate. Qed.

(** X17.  [parse_all] never starts or touches the thread pool.  With fewer
    than 20 kept compounds it starts no pool at all and leaves the recorded
    worker count alone; with 20 or more it works on the process pool, the
    one that exists or else a new one with the worker count of the run.
    This holds also when a document is missing and the run raises. *)
Theorem parse_all_pool_use (env : environment) (index : list CompoundType.t)
    (docs : documents) (g : globals) :
  let kept := length (filter listed_kind_known index) in
  let g' := (parse_all env index docs g).1 in
  thread_executor g' = thread_executor g ∧
  (kept < 20 →
     process_executor g' = process_executor g ∧
     executor_workers g' = executor_workers g) ∧
  (20 ≤ kept →
     process_executor g'
     = Some (default (ProcessPool (workers env)) (process_executor g)) ∧
     executor_workers g' = Some (workers env)).
Proof.
  intros kept g'. unfold g'. rewrite parse_all_eq. cbv zeta.
  match goal with |- context [concurrent_pool_iter ?e ?fn ?xs ?up ?th ?g0] =>
    pose proof (concurrent_pool_iter_state e fn xs up th g0) as Hstate;
    assert (length xs = kept) as Hkept
      by (by rewrite shuffle_Permutation, length_fmap);
    destruct (concurrent_pool_iter e fn xs up th g0) as [g1 r] eqn:Hrun
  end.
  cbv zeta in Hstate. rewrite Hkept in Hstate. simpl in Hstate.
  destruct Hstate as (_ & _ & Hbelow & Habove).
  assert (∀ g2 : globals,
            process_executor g2 = process_executor g1 ∧
            thread_executor g2 = thread_executor g1 ∧
            executor_workers g2 = executor_workers g1 →
            thread_executor g2 = thread_executor g ∧
            (kept < 20 → process_executor g2 = process_executor g ∧
                         executor_workers g2 = executor_workers g) ∧
            (20 ≤ kept →
               process_executor g2
               = Some (default (ProcessPool (workers env)) (process_executor g)) ∧
               executor_workers g2 = Some (workers env))) as Hfinal.
  { intros g2 (-> & -> & ->). split; [|split].
    - destruct (decide (kept < 20)) as [Hk|Hk].
      + by rewrite Hbelow by lia.
      + destruct Habove as (_ & _ & Hp & _); [lia|]. by destruct (Hp eq_refl) as [-> _].
    - intros Hk. by rewrite Hbelow by lia.
    - intros Hk. destruct Habove as (-> & _ & Hp & _); [lia|].
      by destruct (Hp eq_refl) as [_ ->]. }
  simpl. destruct r as [[ts e]|e]; simpl.
  - apply Hfinal, foldl_merge_pools.
  - by apply Hfinal.
Qed.

(** X18.  [parse_all] only appends to [nodes]: what the collection held
    before the run is still there after it, in the same order and at the
    front, also when a document is missing and the run raises part of the
    way. *)
Theorem parse_all_only_appends (env : environment) (index : list CompoundType.t)
    (docs : documents) (g : globals) :
  let g' := (parse_all env index docs g).1 in
  nodes g `prefix_of` nodes g'.
Proof.
  intros g'. unfold g'. rewrite parse_all_eq. cbv zeta.
  match goal with |- context [concurrent_pool_iter ?e ?fn ?xs ?up ?th ?g0] =>
    pose proof (concurrent_pool_iter_state e fn xs up th g0) as Hstate;
    destruct (concurrent_pool_iter e fn xs up th g0) as [g1 r] eqn:Hrun
  end.
  cbv zeta in Hstate. simpl in Hstate. destruct Hstate as (Hnodes & _).
  simpl. destruct r as [[ts e]|e]; simpl.
  - rewrite foldl_merge. simpl. rewrite Hnodes. by apply prefix_app_r.
  - by rewrite Hnodes.
Qed.

(** X15.  When the document of a kept compound is missing, [parse_all]
    raises, and [nodes] has received only part of the results of the
    compounds that come before it in the shuffled order.  With fewer than 20
    kept compounds, where they are processed in turn, it has all of them.
    With 20 or more, where the process pool returns its results chunk by
    chunk, it has those of the whole chunks before the chunk of the missing
    document: the results of the compounds of that chunk that come before
    the missing one are lost, although their documents were read. *)
Theorem missing_document_loses_the_chunk (env : environment)
    (index : list CompoundType.t) (docs : documents) (g : globals)
    (before : list string) (x : string) (after : list string) :
  shuffle (randbelow env) (CompoundType.refid <$> filter listed_kind_known index)
  = before ++ x :: after →
  (∀ id, id ∈ before → is_Some (docs !! (id +:+ ".xml"))) →
  docs !! (x +:+ ".xml") = None →
  let n := length (before ++ x :: after) in
  let chunksize := Z.to_nat (chunk_size env n) in
  let result := λ id, returned ([], []) (process_compound docs id) in
  let delivered :=
    if decide (n < 20) then before
    else take (chunksize * (length before `div` chunksize)) before in
  0 < chunksize ∧
  (∃ e, (parse_all env index docs g).2 = Raise e) ∧
  nodes (parse_all env index docs g).1
  = nodes g ++ (delivered ≫= λ id, (result id).2).
Proof.
  intros Hshuffle Hbefore Hx n chunksize result delivered.
  split.
  { unfold chunksize, chunk_size. pose proof (workers_positive env) as Hw.
    fold (workers env) in Hw.
    assert (1 ≤ (Z.of_nat n + workers env - 1) `div` workers env)%Z; [|lia].
    apply Z.div_le_lower_bound; [lia|]. unfold n. rewrite length_app. simpl. lia. }
  rewrite parse_all_eq. cbv zeta. rewrite Hshuffle.
  assert (∀ id, id ∈ before → process_compound docs id = Ok (result id))
    as Hresult.
  { intros id Hid. destruct (Hbefore id Hid) as [cds Hcds].
    unfold result, process_compound. rewrite Hcds.
    by destruct (process_compound_loop cds [] []) as (entries & -> & _). }
  assert (process_compound docs x = Raise FileNotFoundError) as Hraise
    by (unfold process_compound; by rewrite Hx).
  match goal with |- context [concurrent_pool_iter ?e ?fn ?xs ?up ?th ?g0] =>
    pose proof (concurrent_pool_iter_state e fn xs up th g0) as Hstate;
    pose proof (concurrent_pool_iter_until_raise fn result e before x after
                  FileNotFoundError th g0 Hresult Hraise) as Hrun;
    destruct (concurrent_pool_iter e fn xs up th g0) as [g1 r]
  end.
  cbv zeta in Hstate, Hrun. simpl in Hstate, Hrun.
  destruct Hstate as (Hnodes & _). subst r. simpl.
  split; [by eexists|].
  rewrite foldl_merge. simpl. rewrite Hnodes. f_equal.
  rewrite (bind_triples result). unfold delivered, chunksize, n.
  destruct (decide (length (before ++ x :: after) < 20)),
           (decide (Z.of_nat (length (before ++ x :: after)) < 20)%Z);
    (done || lia).
Qed.

Lemma missing_document_loses_the_chunk_witness :
  let before := ["a_8h"; "n_8h"; "group__core"; "j_8h"; "structfoo"; "r_8h";
                 "unionbar"] in
  let after := ["classbaz"; "p_8h"; "b_8h"; "i_8h"; "c_8h"; "k_8h"; "d_8h";
                "m_8h"; "e_8h"; "o_8h"; "f_8h"; "q_8h"; "g_8h"; "h_8h"] in
  let n := length (before ++ "l_8h" :: after) in
  let chunksize := Z.to_nat (chunk_size busy n) in
  let result := λ id, returned ([], [])
                        (process_compound library_documents_but_one id) in
  let delivered :=
    if decide (n < 20) then before
    else take (chunksize * (length before `div` chunksize)) before in
  0 < chunksize ∧
  (∃ e, (parse_all busy library_index library_documents_but_one at_start).2
        = Raise e) ∧
  nodes (parse_all busy library_index library_documents_but_one at_start).1
  = nodes at_start ++ (delivered ≫= λ id, (result id).2).
Proof.
  apply (missing_document_loses_the_chunk busy library_index
           library_documents_but_one at_start
           ["a_8h"; "n_8h"; "group__core"; "j_8h"; "structfoo"; "r_8h"; "unionbar"]
           "l_8h"
           ["classbaz"; "p_8h"; "b_8h"; "i_8h"; "c_8h"; "k_8h"; "d_8h";
            "m_8h"; "e_8h"; "o_8h"; "f_8h"; "q_8h"; "g_8h"; "h_8h"]).
  - vm_compute. reflexivity.
  - intros id Hid. apply list_elem_of_In in Hid. simpl in Hid.
    repeat (destruct Hid as [<-|Hid]; [by (vm_compute; eexists)|]).
    destruct Hid.
  - vm_compute. reflexivity.
Defined.

(** In that run the chunks hold six ids: the six compounds of the first
    chunk reach [nodes], the union, seventh in the shuffled order, does
    not. *)
Example missing_document_run :
  length (nodes (parse_all busy library_index library_documents_but_one at_start).1)
  = 6 ∧
  (parse_all busy library_index library_documents_but_one at_start).2
  = Raise FileNotFoundError.
Proof. vm_compute. by split. Qed.

(** ** Rendered structs and files *)

(** X19.  The node of a struct, class or union is rendered as an object with
    the members [id], [name], [is_union], [kind], [file], [line] and [desc],
    in that order: the flag is a boolean and the kind is spelled out.  The
    node of a file is rendered with [id], [name], [file], [line], [desc]
    and, only when the compound attaches an id, a last member
    [children_ids] holding every attached id once. *)
Theorem struct_and_file_rendering (compound : compounddefType.t) (is_union : bool) :
  (∃ f l,
     resolved (parse_struct compound is_union) (VStr f) l ∧
     encode (to_value (parse_struct compound is_union))
     = JObj [("id", JStr (compounddefType.id compound));
             ("name", JStr (compounddefType.compoundname compound));
             ("is_union", JBool is_union);
             ("kind", JStr (if is_union then "union" else "struct"));
             ("file", JStr f);
             ("line", encode l);
             ("desc", JStr "")]) ∧
  (∃ first rest f l children,
     parse_file compound = Ok (first :: rest) ∧
     resolved first (VStr f) l ∧
     encode (to_value first)
     = JObj ([("id", JStr (compounddefType.id compound));
              ("name", JStr (compounddefType.compoundname compound));
              ("file", JStr f);
              ("line", encode l);
              ("desc", JStr "")] ++ children) ∧
     (child_ids compound = [] → children = []) ∧
     (child_ids compound ≠ [] →
      ∃ ids, children = [("children_ids", JArr (JStr <$> ids))] ∧
             NoDup ids ∧ ∀ id, id ∈ ids ↔ id ∈ child_ids compound)).
Proof.
  split.
  - destruct (parse_location_assigns
                (Struct (compounddefType.id compound)
                        (compounddefType.compoundname compound) is_union)
                compound) as (f & l & Heq & _).
    exists f, l. unfold parse_struct. rewrite Heq. split.
    + split; rewrite !getattr_setattr_ne by done; apply getattr_setattr_eq.
    + by destruct is_union.
  - unfold parse_file. rewrite parse_file_or_group_eq by done.
    destruct (parse_location_assigns
                (File (compounddefType.id compound)
                      (compounddefType.compoundname compound))
                compound) as (f & l & Heq & _).
    unfold described. rewrite Heq.
    destruct (child_ids compound) as [|id ids] eqn:Hids.
    + eexists _, _, f, l, []. split; [done|]. split; [by split|].
      split; [done|]. by split.
    + eexists _, _, f, l, _. split; [done|]. split; [by split|].
      split; [reflexivity|]. split; [done|]. intros _.
      eexists. split; [reflexivity|]. split; [apply NoDup_elements|].
      intros x. by rewrite elem_of_elements, elem_of_list_to_set.
Qed.

(** ** Chunks *)

Lemma get_chunks_fuel_bounds {A : Type} (chunksize : nat) :
  0 < chunksize →
  ∀ fuel (xs : list A) (k : nat),
    length xs ≤ k * chunksize →
    length (get_chunks_fuel fuel chunksize xs) ≤ k ∧
    Forall (λ chunk, 0 < length chunk ≤ chunksize)
           (get_chunks_fuel fuel chunksize xs).
Proof.
  intros Hsize. induction fuel as [|fuel IH]; intros xs k Hk.
  { simpl. split; [lia|constructor]. }
  destruct xs as [|x xs].
  { simpl. rewrite take_nil. simpl. split; [lia|constructor]. }
  rewrite get_chunks_fuel_cons by done.
  destruct k as [|k]; [simpl in Hk; lia|].
  destruct (IH (drop chunksize (x :: xs)) k) as [Hlen Hall].
  { rewrite length_drop. simpl in *. lia. }
  split; [simpl; lia|]. constructor; [|done].
  rewrite length_take. simpl. lia.
Qed.

(** X20.  For a collection that is not empty the chunk size is the number of
    items divided by the number of workers, rounded up.  The process pool is
    then handed at most as many chunks as there are workers; no chunk is
    empty or longer than the chunk size, and the chunks put end to end are
    the collection. *)
Theorem chunks_are_bounded_by_workers {A : Type} (env : environment) (xs : list A) :
  xs ≠ [] →
  let chunksize := chunk_size env (length xs) in
  let chunks := get_chunks (Z.to_nat chunksize) xs in
  (workers env * (chunksize - 1) < Z.of_nat (length xs) ≤ workers env * chunksize)%Z ∧
  (1 ≤ Z.of_nat (length chunks) ≤ workers env)%Z ∧
  Forall (λ chunk, (1 ≤ Z.of_nat (length chunk) ≤ chunksize)%Z) chunks ∧
  concat chunks = xs.
Proof.
  intros Hxs chunksize chunks.
  pose proof (workers_positive env) as Hw. fold (workers env) in Hw.
  assert (1 ≤ Z.of_nat (length xs))%Z as Hlen by (destruct xs; [done|simpl; lia]).
  assert (workers env * (chunksize - 1) < Z.of_nat (length xs)
          ≤ workers env * chunksize)%Z as Hceil.
  { unfold chunksize, chunk_size.
    pose proof (Z.div_mod (Z.of_nat (length xs) + workers env - 1) (workers env)
                  ltac:(lia)) as Hdiv.
    pose proof (Z.mod_pos_bound (Z.of_nat (length xs) + workers env - 1)
                  (workers env) ltac:(lia)) as Hmod.
    nia. }
  assert (1 ≤ chunksize)%Z as Hsize by nia.
  destruct (get_chunks_fuel_bounds (Z.to_nat chunksize) ltac:(lia)
              (S (length xs)) xs (Z.to_nat (workers env))) as [Hcount Hchunks];
    [nia|].
  assert (concat chunks = xs) as Hconcat
    by (apply get_chunks_concat; lia).
  split; [done|]. split; [|split; [|done]].
  - split; [|unfold chunks, get_chunks; lia].
    destruct chunks; [by rewrite <- Hconcat in Hxs|simpl; lia].
  - eapply Forall_impl; [exact Hchunks|]. simpl. intros chunk ?. lia.
Qed.

Lemma chunks_are_bounded_by_workers_witness :
  let chunksize := chunk_size calm (length [1; 2; 3; 4; 5; 6; 7; 8; 9]) in
  let chunks := get_chunks (Z.to_nat chunksize) [1; 2; 3; 4; 5; 6; 7; 8; 9] in
  (workers calm * (chunksize - 1) < Z.of_nat (length [1; 2; 3; 4; 5; 6; 7; 8; 9])
   ≤ workers calm * chunksize)%Z ∧
  (1 ≤ Z.of_nat (length chunks) ≤ workers calm)%Z ∧
  Forall (λ chunk, (1 ≤ Z.of_nat (length chunk) ≤ chunksize)%Z) chunks ∧
  concat chunks = [1; 2; 3; 4; 5; 6; 7; 8; 9].
Proof.
  apply (chunks_are_bounded_by_workers calm [1; 2; 3; 4; 5; 6; 7; 8; 9]).
  discriminate.
Defined.
